(** * In-place intersection of sorted C++ containers

    A shallow embedding of [intersection_update.cc] and
    [intersection_update2.cc]: the probe variant [IntersectionUpdateLargeAc],
    the merge variant [IntersectionUpdate] and its [std::vector]
    specialization, over an explicit model of C++ containers and iterators.

    Elements are [int]s, modelled as [Z] (only [<], [>] and [==] are used).
    The read-only container [ac] is a list read through an index cursor.
    The mutable container [bc] is reached through the [Container] interface,
    which has two instances: node-based containers ([std::set],
    [std::multiset], [std::list]), whose iterators name nodes and survive
    the erasure of other nodes, and [std::vector], whose iterators are
    positions.  An invalid iterator use is a fault, not a value. *)

From Stdlib Require Import ZArith List Bool Arith Lia Permutation.
Import ListNotations.
Open Scope Z_scope.

(** ** Outcomes and the loop driver *)

Notation "x <- e ;; k" :=
  (match e with Some x => k | None => None end)
  (at level 61, e at next level, right associativity).

(** A call either returns, or uses an invalid iterator in the iteration
    that started in the given state, or exhausts the fuel of the model. *)
Inductive outcome (St : Type) : Type :=
| Done (s : St)
| Fault (s : St)
| OutOfFuel (s : St).
Arguments Done {St} s.
Arguments Fault {St} s.
Arguments OutOfFuel {St} s.

Definition final {St : Type} (o : outcome St) : St :=
  match o with Done s | Fault s | OutOfFuel s => s end.

Definition is_done {St : Type} (o : outcome St) : bool :=
  match o with Done _ => true | _ => false end.

Definition is_fault {St : Type} (o : outcome St) : bool :=
  match o with Fault _ => true | _ => false end.

Section While.
Context {St : Type} (cond : St -> bool) (body : St -> option St).

(** [while (cond) { body }]; testing the condition costs no fuel. *)
Fixpoint while (fuel : nat) (st : St) : outcome St :=
  if cond st then
    match fuel with
    | O => OutOfFuel st
    | S fuel' =>
        match body st with
        | Some st' => while fuel' st'
        | None => Fault st
        end
    end
  else Done st.
End While.

(** The statement after a loop: run [k] on the state the loop returned. *)
Definition and_then {St : Type} (o : outcome St) (k : St -> option St) : outcome St :=
  match o with
  | Done s => match k s with Some s' => Done s' | None => Fault s end
  | _ => o
  end.

(** The state a call returned in; [None] when it did not return. *)
Definition returned {St : Type} (o : outcome St) : option St :=
  match o with
  | Done s => Some s
  | _ => None
  end.

(** ** The read-only container [ac] *)

(** [ac.find(x)]: the position of an element equal to [x], or [ac.end()]. *)
Fixpoint find (x : Z) (ac : list Z) : nat :=
  match ac with
  | [] => O
  | y :: ac' => if y =? x then O else S (find x ac')
  end.

(** Membership in [ac], the specification side of [find]. *)
Definition member (ac : list Z) (x : Z) : bool := existsb (Z.eqb x) ac.

(** Ascending order, duplicates allowed (a multiset or a sorted sequence). *)
Fixpoint ascending (l : list Z) : bool :=
  match l with
  | [] => true
  | x :: l' =>
      match l' with
      | [] => true
      | y :: _ => (x <=? y) && ascending l'
      end
  end.

(** ** The interface of the mutable container [bc] *)

Class Container (C I : Type) : Type := {
  c_begin : C -> I;                         (* bc->begin() *)
  c_end : C -> I;                           (* bc->end() *)
  iter_eqb : I -> I -> bool;                (* b == b_end *)
  deref : C -> I -> option Z;               (* *b *)
  incr : C -> I -> option I;                (* ++b *)
  erase : C -> I -> option C;               (* bc->erase(b_old) *)
  erase_range : C -> I -> I -> option C;    (* bc->erase(first, last) *)
  elements : C -> list Z                    (* the contents, in order *)
}.

(** *** Node-based containers: [std::set], [std::multiset], [std::list]

    A container is the sequence of its nodes; a node has an identity that
    never changes and a value.  An iterator names a node or is the
    past-the-end sentinel, so erasing one node leaves every other iterator
    valid. *)
Module NodeSeq.
Definition node : Type := (nat * Z)%type.
Definition t : Type := list node.

Inductive iter : Type :=
| at_node (id : nat)
| past_the_end.

Definition of_list (l : list Z) : t := combine (seq 0 (length l)) l.

Definition begin_ (c : t) : iter :=
  match c with
  | [] => past_the_end
  | n :: _ => at_node (fst n)
  end.

Definition eqb (i j : iter) : bool :=
  match i, j with
  | at_node x, at_node y => Nat.eqb x y
  | past_the_end, past_the_end => true
  | _, _ => false
  end.

Definition points_to (i : iter) (n : node) : bool := eqb i (at_node (fst n)).

Fixpoint deref (c : t) (i : iter) : option Z :=
  match c with
  | [] => None
  | n :: c' => if points_to i n then Some (snd n) else deref c' i
  end.

Fixpoint incr (c : t) (i : iter) : option iter :=
  match c with
  | [] => None
  | n :: c' => if points_to i n then Some (begin_ c') else incr c' i
  end.

Fixpoint erase (c : t) (i : iter) : option t :=
  match c with
  | [] => None
  | n :: c' =>
      if points_to i n then Some c'
      else c'' <- erase c' i ;; Some (n :: c'')
  end.

(** The nodes from [last] on; [None] when [last] is not ahead. *)
Fixpoint drop_until (last : iter) (c : t) : option t :=
  match c with
  | [] => if eqb last past_the_end then Some [] else None
  | n :: c' => if points_to last n then Some c else drop_until last c'
  end.

Fixpoint erase_range (c : t) (first last : iter) : option t :=
  match c with
  | [] => if eqb first past_the_end then drop_until last [] else None
  | n :: c' =>
      if points_to first n then drop_until last c
      else c'' <- erase_range c' first last ;; Some (n :: c'')
  end.

Definition elements (c : t) : list Z := map snd c.

(** Well-formed containers: no two nodes share an identity. *)
Definition wf (c : t) : Prop := NoDup (map fst c).
End NodeSeq.

Arguments NodeSeq.points_to : simpl never.

#[export] Instance NodeSeq_Container : Container NodeSeq.t NodeSeq.iter := {
  c_begin := NodeSeq.begin_;
  c_end := fun _ => NodeSeq.past_the_end;
  iter_eqb := NodeSeq.eqb;
  deref := NodeSeq.deref;
  incr := NodeSeq.incr;
  erase := NodeSeq.erase;
  erase_range := NodeSeq.erase_range;
  elements := NodeSeq.elements
}.

(** *** [std::vector]

    An iterator is a position.  [erase] moves the later elements one place
    to the left and shortens the vector; positions held elsewhere are not
    adjusted.  Reading or erasing at a position that is not below the size
    is a fault.

    This is the index-based reading of a vector iterator (a pointer into
    the buffer).  In C++ [erase] invalidates every iterator at or after
    the erased position, the end iterator included, and any later use of
    one is undefined; the model keeps comparing and incrementing such
    positions as numbers and reports a fault only at the first read past
    the size, where compiled code may read the stale slot and go on.  So
    after an erasure in the middle of a loop a fault here stands for
    undefined behaviour, and a run that returns after such an erasure is
    not evidence that the C++ call is defined.  Runs without an erasure
    before the loop ends are not affected. *)
Module Vec.
Definition t : Type := list Z.
Definition iter : Type := nat.

Definition begin_ (c : t) : iter := O.
Definition end_ (c : t) : iter := length c.

Definition deref (c : t) (i : iter) : option Z := nth_error c i.

Definition incr (c : t) (i : iter) : option iter := Some (S i).

Definition erase (c : t) (i : iter) : option t :=
  if Nat.ltb i (length c) then Some (firstn i c ++ skipn (S i) c)
  else None.

Definition erase_range (c : t) (first last : iter) : option t :=
  if Nat.leb first last && Nat.leb last (length c)
  then Some (firstn first c ++ skipn last c)
  else None.

(** [c[i] = x] for a position below the size. *)
Fixpoint assign (c : t) (i : iter) (x : Z) : t :=
  match c, i with
  | [], _ => []
  | _ :: c', O => x :: c'
  | y :: c', S i' => y :: assign c' i' x
  end.

(** [std::iter_swap(i, j)] *)
Definition iter_swap (c : t) (i j : iter) : option t :=
  x <- nth_error c i ;;
  y <- nth_error c j ;;
  Some (assign (assign c i y) j x).

(** [--i]; there is no position before the first. *)
Definition decr (i : iter) : option iter :=
  match i with
  | O => None
  | S i' => Some i'
  end.

Definition elements (c : t) : list Z := c.
End Vec.

#[export] Instance Vec_Container : Container Vec.t Vec.iter := {
  c_begin := Vec.begin_;
  c_end := Vec.end_;
  iter_eqb := Nat.eqb;
  deref := Vec.deref;
  incr := Vec.incr;
  erase := Vec.erase;
  erase_range := Vec.erase_range;
  elements := Vec.elements
}.

(** ** intersection_update2.cc *)
Module intersection_update2.

Section Generic.
Context {C I : Type} `{Container C I}.

(** The two containers and the local variables of a call.  [finds] is
    a ghost field: the arguments of the [ac.find] calls made so far. *)
Record state : Type := State {
  ac : list Z;
  bc : C;
  a : nat;
  a_end : nat;
  b : I;
  b_end : I;
  finds : list Z
}.

Definition set_a (st : state) (a' : nat) : state :=
  State (ac st) (bc st) a' (a_end st) (b st) (b_end st) (finds st).

Definition set_b (st : state) (b' : I) : state :=
  State (ac st) (bc st) (a st) (a_end st) b' (b_end st) (finds st).

Definition set_bc (st : state) (bc' : C) : state :=
  State (ac st) bc' (a st) (a_end st) (b st) (b_end st) (finds st).

Definition log_find (st : state) (x : Z) : state :=
  State (ac st) (bc st) (a st) (a_end st) (b st) (b_end st) (finds st ++ [x]).

(** [const b_old = b++; bc->erase(b_old);] *)
Definition erase_and_advance (st : state) : option state :=
  let b_old := b st in
  b' <- incr (bc st) (b st) ;;
  bc' <- erase (bc st) b_old ;;
  Some (set_bc (set_b st b') bc').

(** [++b;] *)
Definition advance_b (st : state) : option state :=
  b' <- incr (bc st) (b st) ;;
  Some (set_b st b').

(** *** IntersectionUpdateLargeAc *)

Definition LargeAc_init (ac0 : list Z) (bc0 : C) : state :=
  {| ac := ac0; bc := bc0; a := O;
     a_end := length ac0;               (* a_end = ac.end() *)
     b := c_begin bc0;                  (* b = bc->begin() *)
     b_end := c_end bc0;                (* b_end = bc->end() *)
     finds := [] |}.

(** [b != b_end] *)
Definition LargeAc_cond (st : state) : bool :=
  negb (iter_eqb (b st) (b_end st)).

Definition LargeAc_body (st : state) : option state :=
  x <- deref (bc st) (b st) ;;
  let st := log_find st x in
  if Nat.eqb (find x (ac st)) (a_end st)      (* ac.find( *b ) == a_end *)
  then erase_and_advance st
  else advance_b st.

Definition IntersectionUpdateLargeAc (fuel : nat) (ac0 : list Z) (bc0 : C)
  : outcome state :=
  while LargeAc_cond LargeAc_body fuel (LargeAc_init ac0 bc0).

(** *** IntersectionUpdate, the general template *)

Definition merge_init (ac0 : list Z) (bc0 : C) : state :=
  {| ac := ac0; bc := bc0;
     a := O;                            (* a = ac.begin() *)
     a_end := length ac0;               (* a_end = ac.end() *)
     b := c_begin bc0;                  (* b = bc->begin() *)
     b_end := c_end bc0;                (* b_end = bc->end() *)
     finds := [] |}.

(** [a != a_end && b != b_end] *)
Definition merge_cond (st : state) : bool :=
  negb (Nat.eqb (a st) (a_end st)) && negb (iter_eqb (b st) (b_end st)).

Definition merge_body (st : state) : option state :=
  x <- nth_error (ac st) (a st) ;;      (* *a *)
  y <- deref (bc st) (b st) ;;          (* *b *)
  if x <? y then Some (set_a st (S (a st)))
  else if x >? y then erase_and_advance st
  else advance_b st.                    (* equal: no ++a *)

(** [bc->erase(b, b_end);] *)
Definition erase_rest (st : state) : option state :=
  bc' <- erase_range (bc st) (b st) (b_end st) ;;
  Some (set_bc st bc').

Definition IntersectionUpdate (fuel : nat) (ac0 : list Z) (bc0 : C)
  : outcome state :=
  and_then (while merge_cond merge_body fuel (merge_init ac0 bc0)) erase_rest.
End Generic.

Arguments state : clear implicits.

(** *** IntersectionUpdate, the specialization for [std::vector] *)

Record vstate : Type := VState {
  v_ac : list Z;
  v_bc : Vec.t;
  v_a : nat;
  v_a_end : nat;
  v_b : Vec.iter;
  v_b_high : Vec.iter
}.

Definition vector_init (ac0 : list Z) (bc0 : Vec.t) : vstate :=
  {| v_ac := ac0; v_bc := bc0;
     v_a := O;                            (* a = ac.begin() *)
     v_a_end := length ac0;               (* a_end = ac.end() *)
     v_b := Vec.begin_ bc0;               (* b = bc->begin() *)
     v_b_high := Vec.end_ bc0 |}.         (* b_high = bc->end() *)

(** [a != a_end && b != b_high] *)
Definition vector_cond (st : vstate) : bool :=
  negb (Nat.eqb (v_a st) (v_a_end st)) && negb (Nat.eqb (v_b st) (v_b_high st)).

Definition vector_body (st : vstate) : option vstate :=
  x <- nth_error (v_ac st) (v_a st) ;;    (* *a *)
  y <- Vec.deref (v_bc st) (v_b st) ;;    (* *b *)
  if x <? y then
    Some (VState (v_ac st) (v_bc st) (S (v_a st)) (v_a_end st)
                 (v_b st) (v_b_high st))
  else if x >? y then
    (* std::iter_swap(b, --b_high); *)
    b_high' <- Vec.decr (v_b_high st) ;;
    bc' <- Vec.iter_swap (v_bc st) (v_b st) b_high' ;;
    Some (VState (v_ac st) bc' (v_a st) (v_a_end st) (v_b st) b_high')
  else
    (* ++a; ++b; *)
    Some (VState (v_ac st) (v_bc st) (S (v_a st)) (v_a_end st)
                 (S (v_b st)) (v_b_high st)).

(** [bc->erase(b, bc->end());] *)
Definition vector_erase_rest (st : vstate) : option vstate :=
  bc' <- Vec.erase_range (v_bc st) (v_b st) (Vec.end_ (v_bc st)) ;;
  Some (VState (v_ac st) bc' (v_a st) (v_a_end st) (v_b st) (v_b_high st)).

Definition IntersectionUpdate_vector (fuel : nat) (ac0 : list Z) (bc0 : Vec.t)
  : outcome vstate :=
  and_then (while vector_cond vector_body fuel (vector_init ac0 bc0))
           vector_erase_rest.

(** *** A call with one container for both arguments

    [IntersectionUpdate(s, &s)] on a node-based container: [ac] and [*bc]
    are the same object, so both cursors run over the one container and
    an erasure through [bc] is an erasure in [ac]. *)
Record alias_state : Type := AliasState {
  al_c : NodeSeq.t;
  al_a : NodeSeq.iter;
  al_a_end : NodeSeq.iter;
  al_b : NodeSeq.iter;
  al_b_end : NodeSeq.iter
}.

Definition alias_init (s : NodeSeq.t) : alias_state :=
  {| al_c := s;
     al_a := NodeSeq.begin_ s;              (* a = ac.begin() *)
     al_a_end := NodeSeq.past_the_end;      (* a_end = ac.end() *)
     al_b := NodeSeq.begin_ s;              (* b = bc->begin() *)
     al_b_end := NodeSeq.past_the_end |}.   (* b_end = bc->end() *)

(** [a != a_end && b != b_end] *)
Definition alias_cond (st : alias_state) : bool :=
  negb (NodeSeq.eqb (al_a st) (al_a_end st))
  && negb (NodeSeq.eqb (al_b st) (al_b_end st)).

Definition alias_body (st : alias_state) : option alias_state :=
  x <- NodeSeq.deref (al_c st) (al_a st) ;;      (* *a *)
  y <- NodeSeq.deref (al_c st) (al_b st) ;;      (* *b *)
  if x <? y then
    a' <- NodeSeq.incr (al_c st) (al_a st) ;;
    Some (AliasState (al_c st) a' (al_a_end st) (al_b st) (al_b_end st))
  else if x >? y then
    (* const b_old = b++; bc->erase(b_old); *)
    b' <- NodeSeq.incr (al_c st) (al_b st) ;;
    c' <- NodeSeq.erase (al_c st) (al_b st) ;;
    Some (AliasState c' (al_a st) (al_a_end st) b' (al_b_end st))
  else
    (* equal: ++b, no ++a *)
    b' <- NodeSeq.incr (al_c st) (al_b st) ;;
    Some (AliasState (al_c st) (al_a st) (al_a_end st) b' (al_b_end st)).

(** [bc->erase(b, b_end);] *)
Definition alias_erase_rest (st : alias_state) : option alias_state :=
  c' <- NodeSeq.erase_range (al_c st) (al_b st) (al_b_end st) ;;
  Some (AliasState c' (al_a st) (al_a_end st) (al_b st) (al_b_end st)).

Definition IntersectionUpdate_aliased (fuel : nat) (s : NodeSeq.t)
  : outcome alias_state :=
  and_then (while alias_cond alias_body fuel (alias_init s)) alias_erase_rest.

(** *** main

    Four empty containers, eight calls in the order of the source, then
    [return 0].  A container passed as [ac] is read as the list of its
    elements.  [None] when a call does not return. *)
Definition main (fuel : nat) : option Z :=
  let s : NodeSeq.t := [] in
  let ms : NodeSeq.t := [] in
  let v : Vec.t := [] in
  let l : NodeSeq.t := [] in
  (* IntersectionUpdate(s, &ms); *)
  st <- returned (IntersectionUpdate fuel (NodeSeq.elements s) ms) ;;
  let ms := bc st in
  (* IntersectionUpdate(ms, &v); *)
  vst <- returned (IntersectionUpdate_vector fuel (NodeSeq.elements ms) v) ;;
  let v := v_bc vst in
  (* IntersectionUpdate(v, &l); *)
  st <- returned (IntersectionUpdate fuel (Vec.elements v) l) ;;
  let l := bc st in
  (* IntersectionUpdate(l, &s); *)
  st <- returned (IntersectionUpdate fuel (NodeSeq.elements l) s) ;;
  let s := bc st in
  (* IntersectionUpdateLargeAc(s, &ms); *)
  st <- returned (IntersectionUpdateLargeAc fuel (NodeSeq.elements s) ms) ;;
  let ms := bc st in
  (* IntersectionUpdateLargeAc(ms, &v); *)
  st <- returned (IntersectionUpdateLargeAc fuel (NodeSeq.elements ms) v) ;;
  let v : Vec.t := bc st in
  (* IntersectionUpdateLargeAc(s, &l); *)
  st <- returned (IntersectionUpdateLargeAc fuel (NodeSeq.elements s) l) ;;
  let l := bc st in
  (* IntersectionUpdateLargeAc(ms, &s); *)
  st <- returned (IntersectionUpdateLargeAc fuel (NodeSeq.elements ms) s) ;;
  Some 0.

End intersection_update2.

(** ** intersection_update.cc: both containers are [std::set]s *)
Module intersection_update.
Import intersection_update2.

Definition state : Type := intersection_update2.state NodeSeq.t NodeSeq.iter.

Definition LargeAc_init (ac0 : list Z) (bc0 : NodeSeq.t) : state :=
  {| ac := ac0; bc := bc0; a := O;
     a_end := length ac0;                 (* a_end = ac.end() *)
     b := NodeSeq.begin_ bc0;             (* b = bc->begin() *)
     b_end := NodeSeq.past_the_end;       (* b_end = bc->end() *)
     finds := [] |}.

Definition LargeAc_cond (st : state) : bool :=
  negb (NodeSeq.eqb (b st) (b_end st)).

Definition LargeAc_body (st : state) : option state :=
  x <- NodeSeq.deref (bc st) (b st) ;;
  let st := log_find st x in
  if Nat.eqb (find x (ac st)) (a_end st)        (* ac.find( *b ) == a_end *)
  then erase_and_advance st
  else advance_b st.

Definition IntersectionUpdateLargeAc (fuel : nat) (ac0 : list Z) (bc0 : NodeSeq.t)
  : outcome state :=
  while LargeAc_cond LargeAc_body fuel (LargeAc_init ac0 bc0).

Definition merge_init (ac0 : list Z) (bc0 : NodeSeq.t) : state :=
  {| ac := ac0; bc := bc0;
     a := O;                              (* a = ac.begin() *)
     a_end := O;                          (* a_end = ac.begin() *)
     b := NodeSeq.begin_ bc0;             (* b = bc->begin() *)
     b_end := NodeSeq.past_the_end;       (* b_end = bc->end() *)
     finds := [] |}.

Definition merge_cond (st : state) : bool :=
  negb (Nat.eqb (a st) (a_end st)) && negb (NodeSeq.eqb (b st) (b_end st)).

Definition merge_body (st : state) : option state :=
  x <- nth_error (ac st) (a st) ;;        (* *a *)
  y <- NodeSeq.deref (bc st) (b st) ;;    (* *b *)
  if x <? y then Some (set_a st (S (a st)))
  else if x >? y then erase_and_advance st
  else                                    (* equal: ++a; ++b; *)
    st' <- advance_b st ;;
    Some (set_a st' (S (a st'))).

Definition IntersectionUpdate (fuel : nat) (ac0 : list Z) (bc0 : NodeSeq.t)
  : outcome state :=
  and_then (while merge_cond merge_body fuel (merge_init ac0 bc0)) erase_rest.

(** *** A call with one set for both arguments: [IntersectionUpdate(s, &s)] *)
Definition alias_init (s : NodeSeq.t) : alias_state :=
  {| al_c := s;
     al_a := NodeSeq.begin_ s;              (* a = ac.begin() *)
     al_a_end := NodeSeq.begin_ s;          (* a_end = ac.begin() *)
     al_b := NodeSeq.begin_ s;              (* b = bc->begin() *)
     al_b_end := NodeSeq.past_the_end |}.   (* b_end = bc->end() *)

Definition alias_body (st : alias_state) : option alias_state :=
  x <- NodeSeq.deref (al_c st) (al_a st) ;;      (* *a *)
  y <- NodeSeq.deref (al_c st) (al_b st) ;;      (* *b *)
  if x <? y then
    a' <- NodeSeq.incr (al_c st) (al_a st) ;;
    Some (AliasState (al_c st) a' (al_a_end st) (al_b st) (al_b_end st))
  else if x >? y then
    (* const b_old = b++; bc->erase(b_old); *)
    b' <- NodeSeq.incr (al_c st) (al_b st) ;;
    c' <- NodeSeq.erase (al_c st) (al_b st) ;;
    Some (AliasState c' (al_a st) (al_a_end st) b' (al_b_end st))
  else
    (* equal: ++a; ++b; *)
    a' <- NodeSeq.incr (al_c st) (al_a st) ;;
    b' <- NodeSeq.incr (al_c st) (al_b st) ;;
    Some (AliasState (al_c st) a' (al_a_end st) b' (al_b_end st)).

Definition IntersectionUpdate_aliased (fuel : nat) (s : NodeSeq.t)
  : outcome alias_state :=
  and_then (while alias_cond alias_body fuel (alias_init s)) alias_erase_rest.

(** *** main: two empty sets, two calls, [return 0] *)
Definition main (fuel : nat) : option Z :=
  let a : NodeSeq.t := [] in
  let b : NodeSeq.t := [] in
  (* IntersectionUpdateLargeAc(a, &b); *)
  st <- returned (IntersectionUpdateLargeAc fuel (NodeSeq.elements a) b) ;;
  let b := bc st in
  (* IntersectionUpdate(a, &b); *)
  st <- returned (IntersectionUpdate fuel (NodeSeq.elements a) b) ;;
  Some 0.

End intersection_update.


Import intersection_update2.

Definition node_state : Type := state NodeSeq.t NodeSeq.iter.
Definition vec_state : Type := state Vec.t Vec.iter.

(** [Subseq r l]: [r] is [l] with some occurrences left out. *)
Inductive Subseq : list Z -> list Z -> Prop :=
| Subseq_nil : Subseq [] []
| Subseq_skip r l x : Subseq r l -> Subseq r (x :: l)
| Subseq_take r l x : Subseq r l -> Subseq (x :: r) (x :: l).

(** * Proofs *)

(** ** The loop driver *)

Section WhileFacts.
Context {St : Type} (cond : St -> bool) (body : St -> option St).

(** A property kept by every iteration holds of the state a run ends in,
    however the run ends. *)
Lemma while_invariant (P : St -> Prop) :
  (forall st st', P st -> cond st = true -> body st = Some st' -> P st') ->
  forall fuel st, P st -> P (final (while cond body fuel st)).
Proof.
  intros Hstep fuel; induction fuel as [|fuel IH]; intros st HP; simpl.
  - destruct (cond st); exact HP.
  - destruct (cond st) eqn:Hc; [|exact HP].
    destruct (body st) as [st'|] eqn:Hb; [|exact HP].
    apply IH. eapply Hstep; eauto.
Qed.

Lemma while_exit fuel st :
  cond st = false -> while cond body fuel st = Done st.
Proof. intros Hc. destruct fuel; simpl; rewrite Hc; reflexivity. Qed.

Lemma while_step fuel st st' :
  cond st = true -> body st = Some st' ->
  while cond body (S fuel) st = while cond body fuel st'.
Proof. intros Hc Hb. simpl. rewrite Hc, Hb. reflexivity. Qed.

End WhileFacts.

Lemma final_and_then_invariant {St : Type} (P : St -> Prop)
      (o : outcome St) (k : St -> option St) :
  (forall st st', P st -> k st = Some st' -> P st') ->
  P (final o) -> P (final (and_then o k)).
Proof.
  intros Hk HP. destruct o as [s|s|s]; simpl in *; auto.
  destruct (k s) eqn:E; simpl; eauto.
Qed.

(** ** Lookup and order on [ac] *)

(** [ac.find(x) == ac.end()] exactly when [x] is not an element of [ac]. *)
Lemma find_end_iff x ac :
  Nat.eqb (find x ac) (length ac) = negb (member ac x).
Proof.
  induction ac as [|y ac IH]; simpl; [reflexivity|].
  rewrite (Z.eqb_sym x y). destruct (y =? x); simpl; [reflexivity|exact IH].
Qed.

Lemma member_In ac x : member ac x = true <-> In x ac.
Proof.
  unfold member. rewrite existsb_exists. split.
  - intros [y [Hy He]]. apply Z.eqb_eq in He. subst. exact Hy.
  - intros Hx. exists x. split; [exact Hx|apply Z.eqb_refl].
Qed.

Lemma member_false_iff ac x : member ac x = false <-> ~ In x ac.
Proof.
  rewrite <- member_In. destruct (member ac x); split; intros H; congruence.
Qed.

Lemma ascending_tail x l : ascending (x :: l) = true -> ascending l = true.
Proof.
  simpl. destruct l as [|y l]; [reflexivity|].
  intros Hc. apply andb_prop in Hc. tauto.
Qed.

Lemma ascending_head_le x l :
  ascending (x :: l) = true -> forall y, In y l -> x <= y.
Proof.
  revert x; induction l as [|z l IH]; intros x Hasc y Hy; [destruct Hy|].
  simpl in Hasc. apply andb_prop in Hasc. destruct Hasc as [Hxz Hl].
  apply Z.leb_le in Hxz. destruct Hy as [->|Hy]; [exact Hxz|].
  specialize (IH z Hl y Hy). lia.
Qed.

Lemma ascending_filter f l :
  ascending l = true -> ascending (filter f l) = true.
Proof.
  induction l as [|x l IH]; intros Hasc; [reflexivity|].
  pose proof (ascending_tail _ _ Hasc) as Hl.
  pose proof (ascending_head_le _ _ Hasc) as Hle.
  specialize (IH Hl). simpl. destruct (f x); [|exact IH].
  destruct (filter f l) as [|y r] eqn:E; [reflexivity|].
  change (ascending (x :: y :: r)) with ((x <=? y) && ascending (y :: r)).
  rewrite IH, andb_true_r. apply Z.leb_le. apply Hle.
  assert (In y (filter f l)) as Hin by (rewrite E; left; reflexivity).
  apply filter_In in Hin. tauto.
Qed.

Lemma filter_idem {A : Type} (f : A -> bool) l :
  filter f (filter f l) = filter f l.
Proof.
  induction l as [|x l IH]; simpl; [reflexivity|].
  destruct (f x) eqn:E; simpl; [rewrite E, IH|]; auto.
Qed.

Lemma map_snd_filter {A B : Type} (f : B -> bool) (l : list (A * B)) :
  map snd (filter (fun n => f (snd n)) l) = filter f (map snd l).
Proof.
  induction l as [|n l IH]; simpl; [reflexivity|].
  destruct (f (snd n)); simpl; rewrite IH; reflexivity.
Qed.

(** ** Node-based containers

    The container is split as [pre ++ post] and the cursor is
    [begin_ post]: the nodes of [pre] are behind the cursor, the first
    node of [post] is under it. *)

Lemma node_points_to_self n : NodeSeq.points_to (NodeSeq.at_node (fst n)) n = true.
Proof. unfold NodeSeq.points_to; simpl. apply Nat.eqb_refl. Qed.

Lemma node_points_to_other i n :
  fst n <> i -> NodeSeq.points_to (NodeSeq.at_node i) n = false.
Proof.
  intros Hne. unfold NodeSeq.points_to; simpl. apply Nat.eqb_neq. congruence.
Qed.

Lemma node_wf_fresh pre n post :
  NodeSeq.wf (pre ++ n :: post) -> ~ In (fst n) (map fst pre).
Proof.
  unfold NodeSeq.wf. rewrite map_app; simpl. intros Hnd Hin.
  apply NoDup_remove_2 in Hnd. apply Hnd. apply in_or_app. left; exact Hin.
Qed.

Lemma node_wf_remove pre n post :
  NodeSeq.wf (pre ++ n :: post) -> NodeSeq.wf (pre ++ post).
Proof.
  unfold NodeSeq.wf. rewrite !map_app; simpl. apply NoDup_remove_1.
Qed.

Lemma node_wf_of_list l : NodeSeq.wf (NodeSeq.of_list l).
Proof.
  unfold NodeSeq.wf, NodeSeq.of_list.
  assert (Hfst : forall (k : list nat) (m : list Z),
             length k = length m -> map fst (combine k m) = k).
  { induction k as [|i k IH]; intros [|z m] Hlen; simpl in *; try congruence.
    rewrite IH; [reflexivity|lia]. }
  rewrite Hfst by (rewrite length_seq; reflexivity). apply seq_NoDup.
Qed.

Lemma node_elements_of_list l : NodeSeq.elements (NodeSeq.of_list l) = l.
Proof.
  unfold NodeSeq.elements, NodeSeq.of_list. generalize 0%nat.
  induction l as [|x l IH]; intros k; simpl; [reflexivity|].
  rewrite IH; reflexivity.
Qed.

Lemma node_length_of_list l : length (NodeSeq.of_list l) = length l.
Proof.
  unfold NodeSeq.of_list. generalize 0%nat.
  induction l as [|x l IH]; intros k; simpl; [reflexivity|].
  rewrite IH; reflexivity.
Qed.

Lemma node_wf_filter f c : NodeSeq.wf c -> NodeSeq.wf (filter f c).
Proof.
  unfold NodeSeq.wf. induction c as [|n c IH]; simpl; intros Hnd; [exact Hnd|].
  inversion Hnd as [|? ? Hnot Hc]; subst.
  destruct (f n); simpl; [|auto].
  constructor; [|auto]. intros Hin. apply Hnot.
  apply in_map_iff in Hin. destruct Hin as [m [Hm Hin]].
  apply filter_In in Hin. apply in_map_iff. exists m. tauto.
Qed.

Lemma node_deref_at pre n post :
  ~ In (fst n) (map fst pre) ->
  NodeSeq.deref (pre ++ n :: post) (NodeSeq.at_node (fst n)) = Some (snd n).
Proof.
  induction pre as [|m pre IH]; simpl; intros Hfresh.
  - rewrite node_points_to_self. reflexivity.
  - rewrite node_points_to_other by tauto. apply IH. tauto.
Qed.

Lemma node_incr_at pre n post :
  ~ In (fst n) (map fst pre) ->
  NodeSeq.incr (pre ++ n :: post) (NodeSeq.at_node (fst n))
  = Some (NodeSeq.begin_ post).
Proof.
  induction pre as [|m pre IH]; simpl; intros Hfresh.
  - rewrite node_points_to_self. reflexivity.
  - rewrite node_points_to_other by tauto. apply IH. tauto.
Qed.

Lemma node_erase_at pre n post :
  ~ In (fst n) (map fst pre) ->
  NodeSeq.erase (pre ++ n :: post) (NodeSeq.at_node (fst n)) = Some (pre ++ post).
Proof.
  induction pre as [|m pre IH]; simpl; intros Hfresh.
  - rewrite node_points_to_self. reflexivity.
  - rewrite node_points_to_other by tauto. rewrite IH by tauto. reflexivity.
Qed.

Lemma node_drop_until_end c :
  NodeSeq.drop_until NodeSeq.past_the_end c = Some [].
Proof. induction c as [|n c IH]; simpl; [reflexivity|exact IH]. Qed.

(** [bc->erase(b, bc->end())] removes exactly the nodes from the cursor on. *)
Lemma node_erase_range_to_end pre post :
  NodeSeq.wf (pre ++ post) ->
  NodeSeq.erase_range (pre ++ post) (NodeSeq.begin_ post) NodeSeq.past_the_end
  = Some pre.
Proof.
  induction pre as [|m pre IH]; simpl; intros Hwf.
  - destruct post as [|n post]; simpl; [reflexivity|].
    rewrite node_points_to_self. apply node_drop_until_end.
  - inversion Hwf as [|? ? Hnot Hrest]; subst.
    assert (NodeSeq.points_to (NodeSeq.begin_ post) m = false) as Hp.
    { destruct post as [|n post]; [reflexivity|]. simpl.
      apply node_points_to_other. intros Heq. apply Hnot.
      rewrite map_app. apply in_or_app. right. left. symmetry; exact Heq. }
    rewrite Hp, IH by exact Hrest. reflexivity.
Qed.

(** ** The probe variant on a node-based container *)

Lemma node_probe_loop : forall post pre fuel (st : node_state),
  bc st = pre ++ post ->
  NodeSeq.wf (pre ++ post) ->
  b st = NodeSeq.begin_ post ->
  b_end st = NodeSeq.past_the_end ->
  a_end st = length (ac st) ->
  (length post <= fuel)%nat ->
  while LargeAc_cond LargeAc_body fuel st
  = Done (State (ac st)
                (pre ++ filter (fun n => member (ac st) (snd n)) post)
                (a st) (a_end st)
                NodeSeq.past_the_end NodeSeq.past_the_end
                (finds st ++ map snd post)).
Proof.
  induction post as [|n post IH]; intros pre fuel st Hbc Hwf Hb Hbe Hae Hfuel;
    destruct st as [ac0 bc0 a0 ae b0 be f0]; simpl in *; subst.
  - rewrite while_exit by reflexivity. rewrite !app_nil_r. reflexivity.
  - destruct fuel as [|fuel]; [lia|].
    pose proof (node_wf_fresh _ _ _ Hwf) as Hfresh.
    destruct (member ac0 (snd n)) eqn:Hm.
    + erewrite while_step; [| reflexivity |].
      2:{ unfold LargeAc_body; simpl. rewrite node_deref_at by exact Hfresh.
          simpl. rewrite find_end_iff, Hm. simpl.
          unfold advance_b; simpl. rewrite node_incr_at by exact Hfresh.
          reflexivity. }
      rewrite (IH (pre ++ [n])); simpl.
      * rewrite <- !app_assoc. reflexivity.
      * rewrite <- app_assoc. reflexivity.
      * rewrite <- app_assoc. exact Hwf.
      * reflexivity.
      * reflexivity.
      * reflexivity.
      * lia.
    + erewrite while_step; [| reflexivity |].
      2:{ unfold LargeAc_body; simpl. rewrite node_deref_at by exact Hfresh.
          simpl. rewrite find_end_iff, Hm. simpl.
          unfold erase_and_advance; simpl.
          rewrite node_incr_at, node_erase_at by exact Hfresh.
          reflexivity. }
      rewrite (IH pre); simpl.
      * rewrite <- !app_assoc. reflexivity.
      * reflexivity.
      * eapply node_wf_remove; exact Hwf.
      * reflexivity.
      * reflexivity.
      * reflexivity.
      * lia.
Qed.

(** ** The general merge variant on a node-based container *)

Lemma nth_error_middle {A : Type} (l1 : list A) x l2 :
  nth_error (l1 ++ x :: l2) (length l1) = Some x.
Proof. induction l1 as [|y l1 IH]; simpl; [reflexivity|exact IH]. Qed.

Lemma length_middle_neq {A : Type} (l1 : list A) x l2 :
  Nat.eqb (length l1) (length (l1 ++ x :: l2)) = false.
Proof. apply Nat.eqb_neq. rewrite length_app; simpl. lia. Qed.

Lemma filter_member_nil {A : Type} (g : A -> Z) l :
  filter (fun n => member [] (g n)) l = [].
Proof. induction l as [|n l IH]; simpl; [reflexivity|exact IH]. Qed.

Lemma node_merge_exit fuel pre post (st : node_state) :
  merge_cond st = false ->
  bc st = pre ++ post ->
  NodeSeq.wf (pre ++ post) ->
  b st = NodeSeq.begin_ post ->
  b_end st = NodeSeq.past_the_end ->
  and_then (while merge_cond merge_body fuel st) erase_rest
  = Done (set_bc st pre).
Proof.
  intros Hc Hbc Hwf Hb Hbe. rewrite while_exit by exact Hc. simpl.
  unfold erase_rest. rewrite Hbc, Hb, Hbe. simpl.
  rewrite node_erase_range_to_end by exact Hwf. reflexivity.
Qed.

Lemma node_merge_loop : forall fuel a2 post a1 pre (st : node_state),
  ac st = a1 ++ a2 ->
  a st = length a1 ->
  a_end st = length (ac st) ->
  bc st = pre ++ post ->
  NodeSeq.wf (pre ++ post) ->
  b st = NodeSeq.begin_ post ->
  b_end st = NodeSeq.past_the_end ->
  ascending a2 = true ->
  ascending (map snd post) = true ->
  (length a2 + length post <= fuel)%nat ->
  exists st',
    and_then (while merge_cond merge_body fuel st) erase_rest = Done st'
    /\ ac st' = ac st
    /\ bc st' = pre ++ filter (fun n => member a2 (snd n)) post
    /\ finds st' = finds st.
Proof.
  induction fuel as [|fuel IH];
    intros a2 post a1 pre st Hac Ha Hae Hbc Hwf Hb Hbe Hasc_a Hasc_b Hfuel.
  - destruct a2; [|simpl in Hfuel; lia]. destruct post; [|simpl in Hfuel; lia].
    exists (set_bc st pre). rewrite (node_merge_exit _ pre []); auto.
    + simpl. rewrite app_nil_r. auto.
    + unfold merge_cond. rewrite Hb, Hbe. simpl. apply andb_false_r.
  - destruct a2 as [|x a2].
    { exists (set_bc st pre). rewrite (node_merge_exit _ pre post); auto.
      - simpl. rewrite (filter_member_nil snd), app_nil_r. auto.
      - unfold merge_cond. rewrite Hae, Hac, Ha, app_nil_r, Nat.eqb_refl.
        reflexivity. }
    destruct post as [|n post].
    { exists (set_bc st pre). rewrite (node_merge_exit _ pre []); auto.
      - simpl. rewrite app_nil_r. auto.
      - unfold merge_cond. rewrite Hb, Hbe. simpl. apply andb_false_r. }
    pose proof (node_wf_fresh _ _ _ Hwf) as Hfresh.
    pose proof (ascending_tail _ _ Hasc_a) as Hasc_a'.
    pose proof (ascending_head_le _ _ Hasc_a) as Hle_a.
    change (ascending (snd n :: map snd post) = true) in Hasc_b.
    pose proof (ascending_tail _ _ Hasc_b) as Hasc_b'.
    pose proof (ascending_head_le _ _ Hasc_b) as Hle_b.
    assert (Hcond : merge_cond st = true).
    { unfold merge_cond. rewrite Hae, Hac, Ha, Hb, Hbe, length_middle_neq.
      reflexivity. }
    assert (Hx : nth_error (ac st) (a st) = Some x)
      by (rewrite Hac, Ha; apply nth_error_middle).
    assert (Hy : deref (bc st) (b st) = Some (snd n))
      by (rewrite Hbc, Hb; simpl; apply node_deref_at; exact Hfresh).
    destruct (x <? snd n) eqn:Hlt; [|destruct (x >? snd n) eqn:Hgt].
    + (* *a < *b : ++a *)
      apply Z.ltb_lt in Hlt.
      erewrite while_step; [| exact Hcond |].
      2:{ unfold merge_body. rewrite Hx, Hy, (proj2 (Z.ltb_lt _ _) Hlt).
          reflexivity. }
      destruct (IH a2 (n :: post) (a1 ++ [x]) pre (set_a st (S (a st))))
        as [st' [Hrun [Hac' [Hbc' Hf']]]]; [simpl; auto .. |].
      * simpl. rewrite Hac, <- app_assoc. reflexivity.
      * simpl. rewrite Ha, length_app; simpl. lia.
      * simpl in Hfuel. lia.
      * exists st'. repeat split; auto.
        rewrite Hbc'. f_equal. apply filter_ext_in. intros m Hm.
        change (member (x :: a2) (snd m))
          with ((snd m =? x) || member a2 (snd m)).
        assert (snd n <= snd m).
        { destruct Hm as [->|Hm]; [lia|]. apply Hle_b.
          apply in_map; exact Hm. }
        replace (snd m =? x) with false by (symmetry; apply Z.eqb_neq; lia).
        reflexivity.
    + (* *a > *b : erase *b *)
      apply Z.gtb_lt in Hgt.
      erewrite while_step; [| exact Hcond |].
      2:{ unfold merge_body. rewrite Hx, Hy, Hlt, (proj2 (Z.gtb_lt _ _) Hgt).
          unfold erase_and_advance. rewrite Hbc, Hb. simpl.
          rewrite node_incr_at, node_erase_at by exact Hfresh. reflexivity. }
      destruct (IH (x :: a2) post a1 pre
                   (set_bc (set_b st (NodeSeq.begin_ post)) (pre ++ post)))
        as [st' [Hrun [Hac' [Hbc' Hf']]]]; [simpl; auto .. |].
      * eapply node_wf_remove; exact Hwf.
      * simpl in Hfuel. simpl. lia.
      * exists st'. repeat split; auto.
        rewrite Hbc'. f_equal. cbn [filter].
        assert (member (x :: a2) (snd n) = false) as ->; [|reflexivity].
        apply member_false_iff. intros [Heq|Hin]; [lia|].
        specialize (Hle_a _ Hin). lia.
    + (* equal: keep *b, ++b *)
      assert (x = snd n) as Heq.
      { apply Z.ltb_ge in Hlt. rewrite Z.gtb_ltb in Hgt.
        apply Z.ltb_ge in Hgt. lia. }
      erewrite while_step; [| exact Hcond |].
      2:{ unfold merge_body. rewrite Hx, Hy, Hlt, Hgt.
          unfold advance_b. rewrite Hbc, Hb. simpl.
          rewrite node_incr_at by exact Hfresh. reflexivity. }
      destruct (IH (x :: a2) post a1 (pre ++ [n])
                   (set_b st (NodeSeq.begin_ post)))
        as [st' [Hrun [Hac' [Hbc' Hf']]]]; [simpl; auto .. |].
      * simpl. rewrite Hbc, <- app_assoc. reflexivity.
      * rewrite <- app_assoc. exact Hwf.
      * simpl in Hfuel. simpl. lia.
      * exists st'. repeat split; auto.
        rewrite Hbc', <- app_assoc. f_equal. cbn [filter].
        assert (member (x :: a2) (snd n) = true) as ->; [|reflexivity].
        apply member_In. left. exact Heq.
Qed.

Lemma node_probe_correct fuel ac0 (c : NodeSeq.t) :
  NodeSeq.wf c ->
  (length c <= fuel)%nat ->
  IntersectionUpdateLargeAc fuel ac0 c
  = Done (State ac0 (filter (fun n => member ac0 (snd n)) c) 0 (length ac0)
                NodeSeq.past_the_end NodeSeq.past_the_end (NodeSeq.elements c)).
Proof.
  intros Hwf Hfuel. unfold IntersectionUpdateLargeAc.
  rewrite (node_probe_loop c []); auto.
Qed.

Lemma node_merge_correct fuel ac0 (c : NodeSeq.t) :
  NodeSeq.wf c ->
  ascending ac0 = true ->
  ascending (NodeSeq.elements c) = true ->
  (length ac0 + length c <= fuel)%nat ->
  exists st',
    IntersectionUpdate fuel ac0 c = Done st'
    /\ ac st' = ac0
    /\ bc st' = filter (fun n => member ac0 (snd n)) c.
Proof.
  intros Hwf Ha Hb Hfuel. unfold IntersectionUpdate.
  destruct (node_merge_loop fuel ac0 c [] [] (merge_init ac0 c))
    as [st' [Hrun [Hac [Hbc _]]]]; auto.
  exists st'. auto.
Qed.

(** ** The [std::vector] specialization of the merge variant *)

Lemma Subseq_nil_l l : Subseq [] l.
Proof. induction l; [apply Subseq_nil|apply Subseq_skip; assumption]. Qed.

Lemma Subseq_app_r r l l' : Subseq r l -> Subseq r (l ++ l').
Proof.
  induction 1 as [|r l x Hs IH|r l x Hs IH]; simpl.
  - apply Subseq_nil_l.
  - apply Subseq_skip; exact IH.
  - apply Subseq_take; exact IH.
Qed.

Lemma Subseq_snoc r l x : Subseq r l -> Subseq (r ++ [x]) (l ++ [x]).
Proof.
  induction 1 as [|r l y Hs IH|r l y Hs IH]; simpl.
  - apply Subseq_take. apply Subseq_nil.
  - apply Subseq_skip; exact IH.
  - apply Subseq_take; exact IH.
Qed.

Lemma Subseq_tail x r l : Subseq (x :: r) l -> Subseq r l.
Proof.
  induction l as [|y l IH]; intros Hs; inversion Hs; subst.
  - apply Subseq_skip. apply IH. assumption.
  - apply Subseq_skip. assumption.
Qed.

Lemma Subseq_In r l : Subseq r l -> forall x, In x r -> In x l.
Proof.
  induction 1 as [|r l y Hs IH|r l y Hs IH]; intros x Hx.
  - destruct Hx.
  - right. apply IH. exact Hx.
  - destruct Hx as [->|Hx]; [left; reflexivity|right; apply IH; exact Hx].
Qed.

Lemma vec_assign_length c i x : length (Vec.assign c i x) = length c.
Proof.
  revert i; induction c as [|y c IH]; intros [|i]; simpl; auto.
Qed.

Lemma vec_assign_after pre r i x :
  Vec.assign (pre ++ r) (length pre + i)%nat x = pre ++ Vec.assign r i x.
Proof.
  induction pre as [|y pre IH]; simpl; [reflexivity|].
  rewrite IH. reflexivity.
Qed.

(** Swapping two positions at or after the cursor keeps what is before it. *)
Lemma vec_iter_swap_after pre r i j :
  (i < length r)%nat -> (j < length r)%nat ->
  exists r', Vec.iter_swap (pre ++ r) (length pre + i)%nat (length pre + j)%nat
             = Some (pre ++ r')
             /\ length r' = length r.
Proof.
  intros Hi Hj. unfold Vec.iter_swap.
  rewrite !nth_error_app2 by lia.
  replace (length pre + i - length pre)%nat with i by lia.
  replace (length pre + j - length pre)%nat with j by lia.
  destruct (nth_error r i) as [x|] eqn:Ex;
    [|apply nth_error_None in Ex; lia].
  destruct (nth_error r j) as [y|] eqn:Ey;
    [|apply nth_error_None in Ey; lia].
  rewrite !vec_assign_after. eexists; split; [reflexivity|].
  rewrite !vec_assign_length. reflexivity.
Qed.

Lemma vec_erase_range_to_end pre r :
  Vec.erase_range (pre ++ r) (length pre) (Vec.end_ (pre ++ r)) = Some pre.
Proof.
  unfold Vec.erase_range, Vec.end_.
  rewrite Nat.leb_refl, andb_true_r.
  assert (length pre <= length (pre ++ r))%nat as Hle
      by (rewrite length_app; lia).
  rewrite (proj2 (Nat.leb_le _ _) Hle).
  rewrite skipn_all, app_nil_r, firstn_app, firstn_all, Nat.sub_diag.
  simpl. rewrite app_nil_r. reflexivity.
Qed.

Ltac vec_side :=
  simpl;
  first [ assumption | reflexivity | lia
        | rewrite <- app_assoc; simpl; assumption
        | rewrite !length_app; simpl; lia
        | apply Subseq_app_r; assumption
        | apply Subseq_snoc; assumption ].

Lemma vec_merge_exit fuel b1 r (st : vstate) :
  vector_cond st = false ->
  v_bc st = b1 ++ r ->
  v_b st = length b1 ->
  and_then (while vector_cond vector_body fuel st) vector_erase_rest
  = Done (VState (v_ac st) b1 (v_a st) (v_a_end st) (v_b st) (v_b_high st)).
Proof.
  intros Hc Hbc Hb. rewrite while_exit by exact Hc. simpl.
  unfold vector_erase_rest. rewrite Hbc, Hb, vec_erase_range_to_end.
  reflexivity.
Qed.

Lemma vec_cond_true (st : vstate) a1 x a2 (b1 : list Z) k :
  v_ac st = a1 ++ x :: a2 ->
  v_a st = length a1 ->
  v_a_end st = length (v_ac st) ->
  v_b st = length b1 ->
  v_b_high st = (length b1 + S k)%nat ->
  vector_cond st = true.
Proof.
  intros Hac Ha Hae Hb Hbh. unfold vector_cond.
  rewrite Hae, Hac, Ha, Hb, Hbh, length_middle_neq. simpl.
  apply negb_true_iff, Nat.eqb_neq. lia.
Qed.

(** Whatever the order of [bc], the loop keeps before the cursor a
    subsequence of the part of [ac] already passed, and it ends. *)
Lemma vec_merge_prefix : forall fuel a2 a1 b1 r k (st : vstate),
  v_ac st = a1 ++ a2 ->
  v_a st = length a1 ->
  v_a_end st = length (v_ac st) ->
  v_bc st = b1 ++ r ->
  v_b st = length b1 ->
  v_b_high st = (length b1 + k)%nat ->
  (k <= length r)%nat ->
  Subseq b1 a1 ->
  (length a2 + k <= fuel)%nat ->
  exists st',
    and_then (while vector_cond vector_body fuel st) vector_erase_rest = Done st'
    /\ v_ac st' = v_ac st
    /\ Subseq (v_bc st') (v_ac st)
    /\ (length (v_bc st') <= length (v_bc st))%nat.
Proof.
  assert (Hexit : forall fuel a2 a1 b1 r (st : vstate),
             vector_cond st = false ->
             v_ac st = a1 ++ a2 -> v_bc st = b1 ++ r -> v_b st = length b1 ->
             Subseq b1 a1 ->
             exists st',
               and_then (while vector_cond vector_body fuel st) vector_erase_rest
               = Done st'
               /\ v_ac st' = v_ac st
               /\ Subseq (v_bc st') (v_ac st)
               /\ (length (v_bc st') <= length (v_bc st))%nat).
  { intros fuel a2 a1 b1 r st Hc Hac Hbc Hb Hsub.
    eexists. rewrite (vec_merge_exit _ b1 r) by assumption.
    split; [reflexivity|]. simpl. split; [reflexivity|]. split.
    - rewrite Hac. apply Subseq_app_r. exact Hsub.
    - rewrite Hbc, length_app. lia. }
  induction fuel as [|fuel IH];
    intros a2 a1 b1 r k st Hac Ha Hae Hbc Hb Hbh Hk Hsub Hfuel.
  - destruct a2; [|simpl in Hfuel; lia]. destruct k; [|lia].
    apply (Hexit _ [] a1 b1 r); auto.
    unfold vector_cond. rewrite Hae, Hac, Ha, app_nil_r, Nat.eqb_refl.
    reflexivity.
  - destruct a2 as [|x a2].
    { apply (Hexit _ [] a1 b1 r); auto.
      unfold vector_cond. rewrite Hae, Hac, Ha, app_nil_r, Nat.eqb_refl.
      reflexivity. }
    destruct k as [|k].
    { apply (Hexit _ (x :: a2) a1 b1 r); auto.
      unfold vector_cond. rewrite Hb, Hbh, Nat.add_0_r, Nat.eqb_refl.
      apply andb_false_r. }
    destruct r as [|y r]; [simpl in Hk; lia|].
    pose proof (vec_cond_true st _ _ _ _ _ Hac Ha Hae Hb Hbh) as Hcond.
    assert (Hx : nth_error (v_ac st) (v_a st) = Some x)
      by (rewrite Hac, Ha; apply nth_error_middle).
    assert (Hy : Vec.deref (v_bc st) (v_b st) = Some y)
      by (rewrite Hbc, Hb; apply nth_error_middle).
    simpl in Hfuel, Hk.
    destruct (x <? y) eqn:Hlt; [|destruct (x >? y) eqn:Hgt].
    + erewrite while_step; [| exact Hcond |].
      2:{ unfold vector_body. rewrite Hx, Hy, Hlt. reflexivity. }
      destruct (IH a2 (a1 ++ [x]) b1 (y :: r) (S k)
                   (VState (v_ac st) (v_bc st) (S (v_a st)) (v_a_end st)
                           (v_b st) (v_b_high st)))
        as [st' Hst']; [vec_side .. | exists st'; exact Hst'].
    + destruct (vec_iter_swap_after b1 (y :: r) 0 k) as [r' [Hswap Hlen]];
        [simpl; lia .. |].
      rewrite Nat.add_0_r in Hswap.
      erewrite while_step; [| exact Hcond |].
      2:{ unfold vector_body. rewrite Hx, Hy, Hlt, Hgt, Hbh, Nat.add_succ_r.
          simpl. rewrite Hbc, Hb, Hswap. reflexivity. }
      simpl in Hlen.
      destruct (IH (x :: a2) a1 b1 r' k
                   (VState (v_ac st) (b1 ++ r') (v_a st) (v_a_end st)
                           (length b1) (length b1 + k)%nat))
        as [st' [Hrun [Hac' [Hsub' Hlen']]]]; [vec_side .. |].
      exists st'. simpl in Hac', Hsub', Hlen'. repeat split; auto.
      rewrite Hbc. rewrite length_app in *. simpl. lia.
    + assert (x = y) as Heq.
      { apply Z.ltb_ge in Hlt. rewrite Z.gtb_ltb in Hgt.
        apply Z.ltb_ge in Hgt. lia. }
      subst y.
      erewrite while_step; [| exact Hcond |].
      2:{ unfold vector_body. rewrite Hx, Hy, Hlt, Hgt. reflexivity. }
      destruct (IH a2 (a1 ++ [x]) (b1 ++ [x]) r k
                   (VState (v_ac st) (v_bc st) (S (v_a st)) (v_a_end st)
                           (S (v_b st)) (v_b_high st)))
        as [st' Hst']; [vec_side .. | exists st'; exact Hst'].
Qed.

(** On a [bc] that is a subsequence of an ascending [ac] the loop finds
    every element and removes nothing. *)
Lemma vec_merge_fixed : forall fuel a2 r a1 b1 (st : vstate),
  v_ac st = a1 ++ a2 ->
  v_a st = length a1 ->
  v_a_end st = length (v_ac st) ->
  v_bc st = b1 ++ r ->
  v_b st = length b1 ->
  v_b_high st = length (b1 ++ r) ->
  Subseq r a2 ->
  ascending a2 = true ->
  (length a2 + length r <= fuel)%nat ->
  exists st',
    and_then (while vector_cond vector_body fuel st) vector_erase_rest = Done st'
    /\ v_ac st' = v_ac st
    /\ v_bc st' = v_bc st.
Proof.
  assert (Hexit : forall fuel b1 (st : vstate),
             v_bc st = b1 -> v_b st = length b1 -> v_b_high st = length b1 ->
             exists st',
               and_then (while vector_cond vector_body fuel st) vector_erase_rest
               = Done st'
               /\ v_ac st' = v_ac st /\ v_bc st' = v_bc st).
  { intros fuel b1 st Hbc Hb Hbh. eexists.
    rewrite (vec_merge_exit _ b1 []).
    - split; [reflexivity|]. simpl. split; [reflexivity|]. symmetry; exact Hbc.
    - unfold vector_cond. rewrite Hb, Hbh, Nat.eqb_refl. apply andb_false_r.
    - rewrite app_nil_r. exact Hbc.
    - exact Hb. }
  induction fuel as [|fuel IH];
    intros a2 r a1 b1 st Hac Ha Hae Hbc Hb Hbh Hsub Hasc Hfuel.
  - destruct a2; [|simpl in Hfuel; lia]. destruct r; [|simpl in Hfuel; lia].
    rewrite app_nil_r in Hbc, Hbh. apply (Hexit _ b1); assumption.
  - destruct r as [|y r].
    { rewrite app_nil_r in Hbc, Hbh. apply (Hexit _ b1); assumption. }
    destruct a2 as [|x a2]; [inversion Hsub|].
    assert (Hbh' : v_b_high st = (length b1 + S (length r))%nat)
      by (rewrite Hbh, length_app; reflexivity).
    pose proof (vec_cond_true st _ _ _ _ _ Hac Ha Hae Hb Hbh') as Hcond.
    pose proof (ascending_tail _ _ Hasc) as Hasc'.
    pose proof (ascending_head_le _ _ Hasc) as Hle.
    assert (Hx : nth_error (v_ac st) (v_a st) = Some x)
      by (rewrite Hac, Ha; apply nth_error_middle).
    assert (Hy : Vec.deref (v_bc st) (v_b st) = Some y)
      by (rewrite Hbc, Hb; apply nth_error_middle).
    assert (Hxy : x <= y).
    { pose proof (Subseq_In _ _ Hsub y (or_introl eq_refl)) as [->|Hin];
        [lia|apply Hle; exact Hin]. }
    simpl in Hfuel.
    destruct (x <? y) eqn:Hlt.
    + apply Z.ltb_lt in Hlt.
      assert (Hsub' : Subseq (y :: r) a2) by (inversion Hsub; subst; [assumption|lia]).
      erewrite while_step; [| exact Hcond |].
      2:{ unfold vector_body. rewrite Hx, Hy, (proj2 (Z.ltb_lt _ _) Hlt).
          reflexivity. }
      destruct (IH a2 (y :: r) (a1 ++ [x]) b1
                   (VState (v_ac st) (v_bc st) (S (v_a st)) (v_a_end st)
                           (v_b st) (v_b_high st)))
        as [st' Hst']; [vec_side .. | exists st'; exact Hst'].
    + apply Z.ltb_ge in Hlt. assert (x = y) by lia. subst y.
      assert (Hgt : (x >? x) = false) by (rewrite Z.gtb_ltb; apply Z.ltb_irrefl).
      assert (Hsub' : Subseq r a2).
      { inversion Hsub; subst; [eapply Subseq_tail; eassumption|assumption]. }
      erewrite while_step; [| exact Hcond |].
      2:{ unfold vector_body. rewrite Hx, Hy, Z.ltb_irrefl, Hgt. reflexivity. }
      destruct (IH a2 r (a1 ++ [x]) (b1 ++ [x])
                   (VState (v_ac st) (v_bc st) (S (v_a st)) (v_a_end st)
                           (S (v_b st)) (v_b_high st)))
        as [st' Hst']; [vec_side .. | exists st'; exact Hst'].
Qed.

(** The specialization returns on every input, and what it leaves in [bc]
    is a subsequence of [ac]. *)
Lemma vector_merge_runs fuel ac0 (bc0 : Vec.t) :
  (length ac0 + length bc0 <= fuel)%nat ->
  exists st',
    IntersectionUpdate_vector fuel ac0 bc0 = Done st'
    /\ v_ac st' = ac0
    /\ Subseq (v_bc st') ac0
    /\ (length (v_bc st') <= length bc0)%nat.
Proof.
  intros Hfuel. unfold IntersectionUpdate_vector.
  apply (vec_merge_prefix fuel ac0 [] [] bc0 (length bc0)); simpl; auto.
  apply Subseq_nil.
Qed.

Lemma vector_merge_fixed fuel ac0 (bc0 : Vec.t) :
  ascending ac0 = true ->
  Subseq bc0 ac0 ->
  (length ac0 + length bc0 <= fuel)%nat ->
  exists st',
    IntersectionUpdate_vector fuel ac0 bc0 = Done st'
    /\ v_ac st' = ac0
    /\ v_bc st' = bc0.
Proof.
  intros Hasc Hsub Hfuel. unfold IntersectionUpdate_vector.
  apply (vec_merge_fixed fuel ac0 bc0 [] []); simpl; auto.
Qed.

(** ** The probe variant on a [std::vector] *)



(** A vector all of whose elements are in [ac] is traversed without an
    erasure and left as it is. *)
Lemma vec_probe_keep : forall r pre fuel (st : vec_state),
  bc st = pre ++ r ->
  b st = length pre ->
  b_end st = length (pre ++ r) ->
  a_end st = length (ac st) ->
  (forall x, In x r -> member (ac st) x = true) ->
  (length r <= fuel)%nat ->
  while LargeAc_cond LargeAc_body fuel st
  = Done (State (ac st) (bc st) (a st) (a_end st) (b_end st) (b_end st)
                (finds st ++ r)).
Proof.
  induction r as [|x r IH]; intros pre fuel st Hbc Hb Hbe Hae Hall Hfuel.
  - rewrite app_nil_r in Hbe. rewrite while_exit.
    + destruct st; simpl in *. rewrite app_nil_r. congruence.
    + unfold LargeAc_cond. simpl. rewrite Hb, Hbe, Nat.eqb_refl. reflexivity.
  - destruct fuel as [|fuel]; [simpl in Hfuel; lia|].
    erewrite while_step.
    2:{ unfold LargeAc_cond. simpl. rewrite Hb, Hbe.
        apply negb_true_iff, Nat.eqb_neq. rewrite length_app. simpl. lia. }
    2:{ unfold LargeAc_body. simpl. unfold Vec.deref.
        rewrite Hbc, Hb, nth_error_middle. simpl.
        rewrite Hae, find_end_iff, (Hall x (or_introl eq_refl)). reflexivity. }
    rewrite (IH (pre ++ [x])); simpl.
    + rewrite <- app_assoc. reflexivity.
    + rewrite Hbc, <- app_assoc. reflexivity.
    + rewrite length_app. simpl. lia.
    + rewrite Hbe, <- app_assoc. reflexivity.
    + exact Hae.
    + intros z Hz. apply Hall. right. exact Hz.
    + simpl in Hfuel. lia.
Qed.



(** ** More fuel does not change a finished run *)

Section MoreFuel.
Context {St : Type} (cond : St -> bool) (body : St -> option St).

Lemma while_done_more fuel k st st' :
  while cond body fuel st = Done st' ->
  while cond body (fuel + k) st = Done st'.
Proof.
  revert st; induction fuel as [|fuel IH]; intros st; simpl.
  - destruct (cond st) eqn:Hc; [discriminate|].
    intros Hd. rewrite while_exit by exact Hc. exact Hd.
  - destruct (cond st); [|auto]. destruct (body st); [apply IH|auto].
Qed.

Lemma while_fault_more fuel k st st' :
  while cond body fuel st = Fault st' ->
  while cond body (fuel + k) st = Fault st'.
Proof.
  revert st; induction fuel as [|fuel IH]; intros st; simpl.
  - destruct (cond st); discriminate.
  - destruct (cond st); [|auto]. destruct (body st); [apply IH|auto].
Qed.
End MoreFuel.

(** * The claims *)

(** ** Supporting results for the node-based containers *)

(** On a node-based container both variants of [intersection_update2.cc]
    return and leave the same nodes: those whose value is in [ac]. *)
Lemma node_variants_agree fuel ac0 (c : NodeSeq.t) :
  NodeSeq.wf c ->
  ascending ac0 = true ->
  ascending (NodeSeq.elements c) = true ->
  (length ac0 + length c <= fuel)%nat ->
  exists st_merge st_probe,
    IntersectionUpdate fuel ac0 c = Done st_merge
    /\ IntersectionUpdateLargeAc fuel ac0 c = Done st_probe
    /\ bc st_merge = bc st_probe
    /\ bc st_probe = filter (fun n => member ac0 (snd n)) c.
Proof.
  intros Hwf Ha Hb Hfuel.
  destruct (node_merge_correct fuel ac0 c Hwf Ha Hb Hfuel)
    as [st' [Hrun [_ Hbc]]].
  exists st'. eexists. split; [exact Hrun|].
  rewrite node_probe_correct by (auto; lia).
  split; [reflexivity|]. simpl. auto.
Qed.

(** The probe variant on a node-based container tests every original
    occurrence once, in order, and keeps those found. *)
Lemma node_probe_tests_each_once fuel ac0 (c : NodeSeq.t) :
  NodeSeq.wf c ->
  (length c <= fuel)%nat ->
  exists st',
    IntersectionUpdateLargeAc fuel ac0 c = Done st'
    /\ finds st' = NodeSeq.elements c
    /\ NodeSeq.elements (bc st') = filter (member ac0) (NodeSeq.elements c).
Proof.
  intros Hwf Hfuel. eexists. rewrite node_probe_correct by assumption.
  split; [reflexivity|]. simpl. split; [reflexivity|].
  apply (map_snd_filter (member ac0)).
Qed.

(** ** C1 *)

(** C1.  The merge variant and the probe variant should leave the same
    [bc] on every supported container.  On the vector [1; 2; 3] with
    [ac = {2, 3}] they do not: the vector specialization of the merge
    variant returns with [bc = [3]], the probe variant reads past the end
    of the vector, and on a node-based container with the same contents
    both leave [2; 3]. *)
Theorem variants_disagree_on_vector (k : nat) :
  IntersectionUpdate_vector (5 + k) [2; 3] [1; 2; 3]
  = Done (VState [2; 3] [3] 2 2 1%nat 2%nat)
  /\ IntersectionUpdateLargeAc (5 + k) [2; 3] ([1; 2; 3] : Vec.t)
     = Fault (State [2; 3] [2; 3] 0 2 2%nat 3%nat [1; 3])
  /\ is_done (IntersectionUpdate (5 + k) [2; 3] (NodeSeq.of_list [1; 2; 3])) = true
  /\ NodeSeq.elements
       (bc (final (IntersectionUpdate (5 + k) [2; 3] (NodeSeq.of_list [1; 2; 3]))))
     = [2; 3]
  /\ NodeSeq.elements
       (bc (final (IntersectionUpdateLargeAc (5 + k) [2; 3]
                     (NodeSeq.of_list [1; 2; 3]))))
     = [2; 3].
Proof.
  unfold IntersectionUpdate_vector, IntersectionUpdateLargeAc, IntersectionUpdate.
  erewrite !while_done_more by (vm_compute; reflexivity).
  erewrite while_fault_more by (vm_compute; reflexivity).
  repeat split.
Qed.

(** ** C2 *)

(** C2.  In [intersection_update.cc] the merge variant sets [a_end] to
    [ac.begin()]: the loop condition fails on entry and the final range
    erasure empties [bc], whatever the inputs; for [ac = {2, 4, 6}] and
    [bc = {1, 2, 3, 4, 5}] the intersection is [{2, 4}]. *)
Theorem set_merge_empties_bc (fuel : nat) (ac0 : list Z) (bc0 : NodeSeq.t) :
  intersection_update.merge_cond (intersection_update.merge_init ac0 bc0) = false
  /\ intersection_update.IntersectionUpdate fuel ac0 bc0
     = Done (State ac0 [] 0 0 (NodeSeq.begin_ bc0) NodeSeq.past_the_end [])
  /\ filter (member [2; 4; 6]) [1; 2; 3; 4; 5] = [2; 4].
Proof.
  split; [reflexivity|]. split; [|reflexivity].
  unfold intersection_update.IntersectionUpdate.
  rewrite while_exit by reflexivity. simpl. unfold erase_rest. simpl.
  destruct bc0 as [|n bc0]; simpl; [reflexivity|].
  rewrite node_points_to_self, node_drop_until_end. reflexivity.
Qed.

(** ** C3 *)

(** C3.  The vector specialization should leave the ascending sequence of
    the elements of [bc] that are in [ac].  With [ac = {2, 3}] and
    [bc = [1; 2; 3]] it swaps 1 and 3, then passes 2 in [ac] while looking
    for 3, and leaves [3] where [2; 3] is expected. *)
Theorem vector_merge_loses_element (k : nat) :
  v_bc (final (IntersectionUpdate_vector (5 + k) [2; 3] [1; 2; 3])) = [3]
  /\ is_done (IntersectionUpdate_vector (5 + k) [2; 3] [1; 2; 3]) = true
  /\ ascending [2; 3] = true /\ ascending [1; 2; 3] = true
  /\ filter (member [2; 3]) [1; 2; 3] = [2; 3].
Proof.
  unfold IntersectionUpdate_vector.
  erewrite while_done_more by (vm_compute; reflexivity).
  repeat split.
Qed.

(** ** C4 *)

(** C4.  The probe variant should leave in [bc] the occurrences whose value
    is in [ac], also when [bc] is a sorted vector.  With [ac = {3}] and the
    vector [1; 2; 3] the run erases 1, moves the cursor to the second
    position of the shortened vector and ends reading past its end; 2, which
    is not in [ac], is still in [bc] then.  A node-based [bc] with the same
    contents is left as [3]. *)
Theorem probe_fails_on_vector (k : nat) :
  is_done (IntersectionUpdateLargeAc (3 + k) [3] ([1; 2; 3] : Vec.t)) = false
  /\ is_fault (IntersectionUpdateLargeAc (3 + k) [3] ([1; 2; 3] : Vec.t)) = true
  /\ bc (final (IntersectionUpdateLargeAc (3 + k) [3] ([1; 2; 3] : Vec.t)))
     = [2; 3]
  /\ filter (member [3]) [1; 2; 3] = [3]
  /\ NodeSeq.elements
       (bc (final (IntersectionUpdateLargeAc (3 + k) [3]
                     (NodeSeq.of_list [1; 2; 3]))))
     = [3].
Proof.
  unfold IntersectionUpdateLargeAc.
  erewrite while_fault_more by (vm_compute; reflexivity).
  erewrite while_done_more by (vm_compute; reflexivity).
  repeat split.
Qed.

(** ** C5 *)

(** C5.  On ascending inputs and a node-based [bc] (set, multiset, sorted
    list) the general merge variant of [intersection_update2.cc] returns,
    and [bc] then holds exactly the nodes it held whose value is in [ac],
    in their original order; [ac] is as it was. *)
Theorem merge_general_correct (fuel : nat) (ac0 bc0 : list Z)
    (Hac : ascending ac0 = true)
    (Hbc : ascending bc0 = true)
    (Hfuel : (length ac0 + length bc0 <= fuel)%nat) :
  exists st',
    IntersectionUpdate fuel ac0 (NodeSeq.of_list bc0) = Done st'
    /\ bc st' = filter (fun n => member ac0 (snd n)) (NodeSeq.of_list bc0)
    /\ NodeSeq.elements (bc st') = filter (member ac0) bc0
    /\ ac st' = ac0.
Proof.
  destruct (node_merge_correct fuel ac0 (NodeSeq.of_list bc0))
    as [st' [Hrun [Hac' Hbc']]].
  - apply node_wf_of_list.
  - exact Hac.
  - rewrite node_elements_of_list. exact Hbc.
  - rewrite node_length_of_list. exact Hfuel.
  - exists st'. repeat split; auto.
    rewrite Hbc'. unfold NodeSeq.elements.
    rewrite (map_snd_filter (member ac0)).
    fold (NodeSeq.elements (NodeSeq.of_list bc0)).
    rewrite node_elements_of_list. reflexivity.
Qed.

Lemma merge_general_correct_witness :
  exists st',
    IntersectionUpdate 6 [5; 10] (NodeSeq.of_list [5; 5; 7; 10]) = Done st'
    /\ bc st' = filter (fun n => member [5; 10] (snd n))
                       (NodeSeq.of_list [5; 5; 7; 10])
    /\ NodeSeq.elements (bc st') = filter (member [5; 10]) [5; 5; 7; 10]
    /\ ac st' = [5; 10].
Proof.
  apply (merge_general_correct 6 [5; 10] [5; 5; 7; 10]).
  - reflexivity.
  - reflexivity.
  - simpl. lia.
Defined.

(** ** C6 *)

(** When the current elements are equal, the general merge variant of
    [intersection_update2.cc] leaves [bc] and the [a] cursor as they are
    and advances [b] only. *)
Lemma general_merge_equal_branch (st : node_state) (x : Z) (b' : NodeSeq.iter) :
  nth_error (ac st) (a st) = Some x ->
  NodeSeq.deref (bc st) (b st) = Some x ->
  NodeSeq.incr (bc st) (b st) = Some b' ->
  intersection_update2.merge_body st = Some (set_b st b').
Proof.
  intros Ha Hb Hn.
  assert (Hgt : (x >? x) = false) by (rewrite Z.gtb_ltb; apply Z.ltb_irrefl).
  unfold intersection_update2.merge_body. simpl. rewrite Ha, Hb.
  rewrite Z.ltb_irrefl, Hgt. unfold advance_b. simpl. rewrite Hn. reflexivity.
Qed.

(** C6.  On equal elements every merge variant should keep the element
    of [bc] and advance [b] only, so that [ac = {5, 10}] and
    [bc = [5; 5; 7; 10]] give [5; 5; 10].  The vector specialization does
    [++a; ++b;]: its first iteration on that input, at 5 == 5, moves [a]
    on to 10, the second 5 of [bc] is then below [*a] and is swapped out,
    and the call returns with [bc = [5; 10]].  The general template on
    the same contents advances [b] only and leaves [5; 5; 10]. *)
Theorem vector_merge_drops_duplicate (k : nat) :
  vector_body (vector_init [5; 10] [5; 5; 7; 10])
  = Some (VState [5; 10] [5; 5; 7; 10] 1 2 1%nat 4%nat)
  /\ IntersectionUpdate_vector (6 + k) [5; 10] [5; 5; 7; 10]
     = Done (VState [5; 10] [5; 10] 2 2 2%nat 3%nat)
  /\ intersection_update2.merge_body
       (merge_init [5; 10] (NodeSeq.of_list [5; 5; 7; 10]))
     = Some (set_b (merge_init [5; 10] (NodeSeq.of_list [5; 5; 7; 10]))
                   (NodeSeq.at_node 1))
  /\ is_done (IntersectionUpdate (6 + k) [5; 10] (NodeSeq.of_list [5; 5; 7; 10]))
     = true
  /\ NodeSeq.elements
       (bc (final (IntersectionUpdate (6 + k) [5; 10]
                     (NodeSeq.of_list [5; 5; 7; 10]))))
     = [5; 5; 10].
Proof.
  split; [reflexivity|]. split.
  - unfold IntersectionUpdate_vector.
    erewrite while_done_more by (vm_compute; reflexivity). reflexivity.
  - split; [reflexivity|]. unfold IntersectionUpdate.
    erewrite while_done_more by (vm_compute; reflexivity).
    split; reflexivity.
Qed.

(** ** C7 *)

(** C7.  The probe variant should test every original occurrence of [bc]
    once, also on a sorted vector.  With [ac = {3}] and the vector
    [1; 2; 3] the calls of [ac.find] are made for 1 and 3 only: erasing 1
    moves 2 under the position the cursor has just left, so 2 is skipped,
    and the run ends reading past the end of the vector.  On a node-based
    container with the same contents the calls are made for 1, 2 and 3. *)
Theorem probe_skips_on_vector (k : nat) :
  IntersectionUpdateLargeAc (3 + k) [3] ([1; 2; 3] : Vec.t)
  = Fault (State [3] [2; 3] 0 1 2%nat 3%nat [1; 3])
  /\ finds (final (IntersectionUpdateLargeAc (3 + k) [3]
                     (NodeSeq.of_list [1; 2; 3])))
     = [1; 2; 3].
Proof.
  unfold IntersectionUpdateLargeAc.
  erewrite while_fault_more by (vm_compute; reflexivity).
  erewrite while_done_more by (vm_compute; reflexivity).
  split; reflexivity.
Qed.

(** ** C8 *)

Lemma body_keeps_ac {C I : Type} `{Container C I} (ac0 : list Z) :
  (forall st st' : state C I,
      ac st = ac0 -> erase_and_advance st = Some st' -> ac st' = ac0)
  /\ (forall st st' : state C I,
        ac st = ac0 -> advance_b st = Some st' -> ac st' = ac0)
  /\ (forall st st' : state C I,
        ac st = ac0 -> erase_rest st = Some st' -> ac st' = ac0).
Proof.
  unfold erase_and_advance, advance_b, erase_rest.
  repeat split; intros st st' Hac Hstep;
    repeat match type of Hstep with
           | match ?e with _ => _ end = _ => destruct e; try discriminate
           end;
    injection Hstep as <-; exact Hac.
Qed.

(** When [ac] and [*bc] are two containers, no entry point changes [ac]:
    in the state a call ends in, however it ends, [ac] is the argument it
    was given.  (The state keeps [ac] apart from [bc], so this says
    nothing of a call that passes one container for both.) *)
Lemma ac_is_never_mutated {C I : Type} `{Container C I}
    (fuel : nat) (ac0 : list Z) (bc0 : C) (v : Vec.t) (s : NodeSeq.t) :
  ac (final (intersection_update2.IntersectionUpdateLargeAc fuel ac0 bc0)) = ac0
  /\ ac (final (intersection_update2.IntersectionUpdate fuel ac0 bc0)) = ac0
  /\ v_ac (final (IntersectionUpdate_vector fuel ac0 v)) = ac0
  /\ ac (final (intersection_update.IntersectionUpdateLargeAc fuel ac0 s)) = ac0
  /\ ac (final (intersection_update.IntersectionUpdate fuel ac0 s)) = ac0.
Proof.
  destruct (body_keeps_ac (C:=C) ac0) as [Hea [Hadv Hrest]].
  destruct (body_keeps_ac (C:=NodeSeq.t) ac0) as [Hea' [Hadv' Hrest']].
  split; [|split; [|split; [|split]]].
  - unfold intersection_update2.IntersectionUpdateLargeAc.
    apply (while_invariant _ _ (fun st => ac st = ac0)); [|reflexivity].
    intros st st' Hac _ Hbody. unfold LargeAc_body in Hbody.
    destruct (deref (bc st) (b st)) as [x|]; [|discriminate].
    destruct (Nat.eqb _ _);
      [apply (Hea (log_find st x) st')|apply (Hadv (log_find st x) st')];
      solve [exact Hac | exact Hbody].
  - unfold intersection_update2.IntersectionUpdate.
    apply (final_and_then_invariant (fun st => ac st = ac0)); [exact Hrest|].
    apply (while_invariant _ _ (fun st => ac st = ac0)); [|reflexivity].
    intros st st' Hac _ Hbody. unfold intersection_update2.merge_body in Hbody.
    destruct (nth_error (ac st) (a st)); [|discriminate].
    destruct (deref (bc st) (b st)); [|discriminate].
    destruct (_ <? _); [injection Hbody as <-; exact Hac|].
    destruct (_ >? _); [eapply Hea|eapply Hadv]; eauto.
  - unfold IntersectionUpdate_vector.
    apply (final_and_then_invariant (fun st => v_ac st = ac0)).
    { intros st st' Hac Hk. unfold vector_erase_rest in Hk.
      destruct (Vec.erase_range _ _ _); [|discriminate].
      injection Hk as <-. exact Hac. }
    apply (while_invariant _ _ (fun st => v_ac st = ac0)); [|reflexivity].
    intros st st' Hac _ Hbody. unfold vector_body in Hbody.
    destruct (nth_error (v_ac st) (v_a st)); [|discriminate].
    destruct (Vec.deref (v_bc st) (v_b st)); [|discriminate].
    destruct (_ <? _); [injection Hbody as <-; exact Hac|].
    destruct (_ >? _); [|injection Hbody as <-; exact Hac].
    destruct (Vec.decr _); [|discriminate].
    destruct (Vec.iter_swap _ _ _); [|discriminate].
    injection Hbody as <-; exact Hac.
  - unfold intersection_update.IntersectionUpdateLargeAc.
    apply (while_invariant _ _ (fun st => ac st = ac0)); [|reflexivity].
    intros st st' Hac _ Hbody. unfold intersection_update.LargeAc_body in Hbody.
    destruct (NodeSeq.deref (bc st) (b st)) as [x|]; [|discriminate].
    destruct (Nat.eqb _ _);
      [apply (Hea' (log_find st x) st')|apply (Hadv' (log_find st x) st')];
      solve [exact Hac | exact Hbody].
  - unfold intersection_update.IntersectionUpdate.
    apply (final_and_then_invariant (fun st => ac st = ac0)); [exact Hrest'|].
    apply (while_invariant _ _ (fun st => ac st = ac0)); [|reflexivity].
    intros st st' Hac _ Hbody. unfold intersection_update.merge_body in Hbody.
    destruct (nth_error (ac st) (a st)); [|discriminate].
    destruct (NodeSeq.deref (bc st) (b st)); [|discriminate].
    destruct (_ <? _); [injection Hbody as <-; exact Hac|].
    destruct (_ >? _); [eapply Hea'; eauto|].
    destruct (advance_b st) as [st1|] eqn:Hadv1; [|discriminate].
    injection Hbody as <-. simpl. eapply Hadv'; eauto.
Qed.

(** *** One container passed for both arguments *)

Lemma node_eqb_refl i : NodeSeq.eqb i i = true.
Proof. destruct i; simpl; [apply Nat.eqb_refl|reflexivity]. Qed.

Lemma node_erase_range_all (s : NodeSeq.t) :
  NodeSeq.erase_range s (NodeSeq.begin_ s) NodeSeq.past_the_end = Some [].
Proof.
  destruct s as [|n s]; simpl; [reflexivity|].
  rewrite node_points_to_self. apply node_drop_until_end.
Qed.

(** The merge variant of [intersection_update.cc], called with one set for
    both arguments, removes every element of that set. *)
Lemma set_merge_aliased_empties fuel (s : NodeSeq.t) :
  intersection_update.IntersectionUpdate_aliased fuel s
  = Done (AliasState [] (NodeSeq.begin_ s) (NodeSeq.begin_ s)
                     (NodeSeq.begin_ s) NodeSeq.past_the_end).
Proof.
  unfold intersection_update.IntersectionUpdate_aliased.
  rewrite while_exit.
  - simpl. unfold alias_erase_rest. simpl. rewrite node_erase_range_all.
    reflexivity.
  - unfold alias_cond. simpl. rewrite node_eqb_refl. reflexivity.
Qed.

Lemma node_begin_not_end (n : NodeSeq.node) (c : NodeSeq.t) :
  NodeSeq.eqb (NodeSeq.begin_ (n :: c)) NodeSeq.past_the_end = false.
Proof. reflexivity. Qed.

Ltac alias_side :=
  simpl;
  first [ assumption | reflexivity | lia
        | rewrite <- !app_assoc; simpl; first [assumption | reflexivity]
        | rewrite length_app; simpl; lia ].

(** The general merge variant of [intersection_update2.cc], called with one
    ascending container for both arguments: [a] never passes [b], every
    comparison finds [*a <= *b], nothing is erased.  [mid] holds the
    nodes from [a] up to [b]. *)
Lemma alias_merge_loop : forall fuel post mid p (st : alias_state),
  al_c st = p ++ mid ++ post ->
  NodeSeq.wf (p ++ mid ++ post) ->
  al_a st = NodeSeq.begin_ (mid ++ post) ->
  al_b st = NodeSeq.begin_ post ->
  al_a_end st = NodeSeq.past_the_end ->
  al_b_end st = NodeSeq.past_the_end ->
  ascending (map snd (mid ++ post)) = true ->
  (2 * length post + length mid <= fuel)%nat ->
  exists st',
    and_then (while alias_cond alias_body fuel st) alias_erase_rest = Done st'
    /\ al_c st' = al_c st.
Proof.
  assert (Hexit : forall fuel c (st : alias_state),
             al_c st = c -> NodeSeq.wf c ->
             al_b st = NodeSeq.past_the_end ->
             al_b_end st = NodeSeq.past_the_end ->
             exists st',
               and_then (while alias_cond alias_body fuel st) alias_erase_rest
               = Done st'
               /\ al_c st' = al_c st).
  { intros fuel c st Hc Hwf Hb Hbe. eexists. rewrite while_exit.
    - simpl. unfold alias_erase_rest. rewrite Hc, Hb, Hbe.
      pose proof (node_erase_range_to_end c []) as He. simpl in He.
      rewrite app_nil_r in He. rewrite He by exact Hwf.
      split; reflexivity.
    - unfold alias_cond. rewrite Hb, Hbe. simpl. apply andb_false_r. }
  induction fuel as [|fuel IH];
    intros post mid p st Hc Hwf Ha Hb Hae Hbe Hasc Hfuel.
  - destruct post; [|simpl in Hfuel; lia].
    apply (Hexit _ (p ++ mid ++ [])); auto.
  - destruct post as [|nb post].
    { apply (Hexit _ (p ++ mid ++ [])); auto. }
    assert (Hcond : alias_cond st = true).
    { unfold alias_cond. rewrite Ha, Hb, Hae, Hbe.
      destruct mid; reflexivity. }
    assert (Hwf' : NodeSeq.wf ((p ++ mid) ++ nb :: post))
      by (rewrite <- app_assoc; exact Hwf).
    pose proof (node_wf_fresh _ _ _ Hwf') as Hfresh_b.
    assert (Hy : NodeSeq.deref (al_c st) (al_b st) = Some (snd nb)).
    { rewrite Hc, Hb, app_assoc. apply node_deref_at. exact Hfresh_b. }
    assert (Hnb : NodeSeq.incr (al_c st) (al_b st) = Some (NodeSeq.begin_ post)).
    { rewrite Hc, Hb, app_assoc. apply node_incr_at. exact Hfresh_b. }
    assert (Hgt_refl : forall z, (z >? z) = false)
      by (intros z; rewrite Z.gtb_ltb; apply Z.ltb_irrefl).
    simpl in Hfuel.
    destruct mid as [|m mid].
    + (* a = b *)
      assert (Hx : NodeSeq.deref (al_c st) (al_a st) = Some (snd nb))
        by (rewrite Ha;
            change (NodeSeq.begin_ ([] ++ nb :: post))
              with (NodeSeq.begin_ (nb :: post));
            rewrite <- Hb; exact Hy).
      erewrite while_step; [| exact Hcond |].
      2:{ unfold alias_body. rewrite Hx, Hy, Z.ltb_irrefl, Hgt_refl, Hnb.
          reflexivity. }
      destruct (IH post [nb] p
                   (AliasState (al_c st) (al_a st) (al_a_end st)
                               (NodeSeq.begin_ post) (al_b_end st)))
        as [st' [Hrun Hc']]; [alias_side .. |].
      exists st'. auto.
    + (* a before b *)
      simpl in Hfuel.
      pose proof (node_wf_fresh _ _ _ Hwf) as Hfresh_a.
      assert (Hx : NodeSeq.deref (al_c st) (al_a st) = Some (snd m)).
      { rewrite Hc, Ha. simpl. apply node_deref_at. exact Hfresh_a. }
      change (ascending (snd m :: map snd (mid ++ nb :: post)) = true) in Hasc.
      pose proof (ascending_tail _ _ Hasc) as Hasc'.
      assert (Hle : snd m <= snd nb).
      { apply (ascending_head_le _ _ Hasc).
        rewrite map_app. apply in_or_app. right. left. reflexivity. }
      destruct (snd m <? snd nb) eqn:Hlt.
      * erewrite while_step; [| exact Hcond |].
        2:{ unfold alias_body. rewrite Hx, Hy, Hlt, Hc, Ha. simpl.
            rewrite node_incr_at by exact Hfresh_a. reflexivity. }
        destruct (IH (nb :: post) mid (p ++ [m])
                     (AliasState (p ++ m :: mid ++ nb :: post)
                                 (NodeSeq.begin_ (mid ++ nb :: post))
                                 (al_a_end st) (al_b st) (al_b_end st)))
          as [st' [Hrun Hc']]; [alias_side .. |].
        exists st'. split; [exact Hrun|]. rewrite Hc'. simpl.
        symmetry; exact Hc.
      * apply Z.ltb_ge in Hlt. assert (Heq : snd m = snd nb) by lia.
        erewrite while_step; [| exact Hcond |].
        2:{ unfold alias_body. rewrite Hx, Hy, Heq, Z.ltb_irrefl, Hgt_refl, Hnb.
            reflexivity. }
        destruct (IH post ((m :: mid) ++ [nb]) p
                     (AliasState (al_c st) (al_a st) (al_a_end st)
                                 (NodeSeq.begin_ post) (al_b_end st)))
          as [st' [Hrun Hc']]; [alias_side .. |].
        exists st'. auto.
Qed.

Lemma general_merge_aliased_keeps fuel (s : NodeSeq.t) :
  NodeSeq.wf s ->
  ascending (NodeSeq.elements s) = true ->
  (2 * length s <= fuel)%nat ->
  exists st',
    intersection_update2.IntersectionUpdate_aliased fuel s = Done st'
    /\ al_c st' = s.
Proof.
  intros Hwf Hasc Hfuel. unfold intersection_update2.IntersectionUpdate_aliased.
  apply (alias_merge_loop fuel s [] []); simpl; auto. lia.
Qed.

(** C8.  No call should change [ac].  [IntersectionUpdate(s, &s)] of
    [intersection_update.cc] does: with [a_end = ac.begin()] the loop is
    skipped and [erase(b, b_end)] removes every element of [s], which is
    [ac].  The general template of [intersection_update2.cc], whose
    [a_end] is [ac.end()], called in the same way on the same ascending
    contents, returns with the container as it was. *)
Theorem aliased_set_merge_mutates_ac (fuel : nat) (l : list Z)
    (Hasc : ascending l = true)
    (Hfuel : (2 * length l <= fuel)%nat) :
  intersection_update.IntersectionUpdate_aliased fuel (NodeSeq.of_list l)
  = Done (AliasState [] (NodeSeq.begin_ (NodeSeq.of_list l))
                     (NodeSeq.begin_ (NodeSeq.of_list l))
                     (NodeSeq.begin_ (NodeSeq.of_list l)) NodeSeq.past_the_end)
  /\ exists st',
       intersection_update2.IntersectionUpdate_aliased fuel (NodeSeq.of_list l)
       = Done st'
       /\ al_c st' = NodeSeq.of_list l.
Proof.
  split; [apply set_merge_aliased_empties|].
  apply general_merge_aliased_keeps.
  - apply node_wf_of_list.
  - rewrite node_elements_of_list. exact Hasc.
  - rewrite node_length_of_list. exact Hfuel.
Qed.

Lemma aliased_set_merge_mutates_ac_witness :
  intersection_update.IntersectionUpdate_aliased 6 (NodeSeq.of_list [1; 2; 3])
  = Done (AliasState [] (NodeSeq.begin_ (NodeSeq.of_list [1; 2; 3]))
                     (NodeSeq.begin_ (NodeSeq.of_list [1; 2; 3]))
                     (NodeSeq.begin_ (NodeSeq.of_list [1; 2; 3]))
                     NodeSeq.past_the_end)
  /\ exists st',
       intersection_update2.IntersectionUpdate_aliased 6 (NodeSeq.of_list [1; 2; 3])
       = Done st'
       /\ al_c st' = NodeSeq.of_list [1; 2; 3].
Proof.
  apply (aliased_set_merge_mutates_ac 6 [1; 2; 3]).
  - reflexivity.
  - simpl. lia.
Defined.

(** ** C9 *)

Lemma filter_length_le {A : Type} (f : A -> bool) l :
  (length (filter f l) <= length l)%nat.
Proof.
  induction l as [|x l IH]; simpl; [lia|]. destruct (f x); simpl; lia.
Qed.

Lemma node_merge_idempotent fuel ac0 (c : NodeSeq.t) :
  NodeSeq.wf c ->
  ascending ac0 = true ->
  ascending (NodeSeq.elements c) = true ->
  (length ac0 + length c <= fuel)%nat ->
  exists st1 st2,
    IntersectionUpdate fuel ac0 c = Done st1
    /\ IntersectionUpdate fuel ac0 (bc st1) = Done st2
    /\ bc st2 = bc st1.
Proof.
  intros Hwf Ha Hb Hfuel.
  destruct (node_merge_correct fuel ac0 c Hwf Ha Hb Hfuel)
    as [st1 [Hrun1 [_ Hbc1]]].
  destruct (node_merge_correct fuel ac0 (bc st1)) as [st2 [Hrun2 [_ Hbc2]]].
  - rewrite Hbc1. apply node_wf_filter. exact Hwf.
  - exact Ha.
  - rewrite Hbc1. unfold NodeSeq.elements.
    rewrite (map_snd_filter (member ac0)). apply ascending_filter. exact Hb.
  - rewrite Hbc1. eapply Nat.le_trans; [|exact Hfuel].
    apply Nat.add_le_mono_l, filter_length_le.
  - exists st1, st2. repeat split; auto.
    rewrite Hbc2, Hbc1. apply filter_idem.
Qed.

Lemma node_probe_idempotent fuel ac0 (c : NodeSeq.t) :
  NodeSeq.wf c ->
  (length c <= fuel)%nat ->
  exists st1 st2,
    IntersectionUpdateLargeAc fuel ac0 c = Done st1
    /\ IntersectionUpdateLargeAc fuel ac0 (bc st1) = Done st2
    /\ bc st2 = bc st1.
Proof.
  intros Hwf Hfuel. eexists. eexists.
  rewrite node_probe_correct by assumption. split; [reflexivity|]. simpl.
  rewrite node_probe_correct.
  - split; [reflexivity|]. simpl. apply filter_idem.
  - apply node_wf_filter. exact Hwf.
  - eapply Nat.le_trans; [|exact Hfuel]. apply filter_length_le.
Qed.

Lemma vector_merge_idempotent fuel ac0 (bc0 : Vec.t) :
  ascending ac0 = true ->
  (length ac0 + length bc0 <= fuel)%nat ->
  exists st1 st2,
    IntersectionUpdate_vector fuel ac0 bc0 = Done st1
    /\ IntersectionUpdate_vector fuel ac0 (v_bc st1) = Done st2
    /\ v_bc st2 = v_bc st1.
Proof.
  intros Ha Hfuel.
  destruct (vector_merge_runs fuel ac0 bc0 Hfuel)
    as [st1 [Hrun1 [_ [Hsub Hlen]]]].
  destruct (vector_merge_fixed fuel ac0 (v_bc st1) Ha Hsub)
    as [st2 [Hrun2 [_ Hbc2]]]; [lia|].
  exists st1, st2. auto.
Qed.

(** C9.  A second run of the same operation should leave the reduced [bc]
    as it is.  For the probe variant on a vector it does not: with
    [ac = {3}] and [bc = [1; 2; 3]] the first run erases 1, skips 2 and
    leaves [bc = [2; 3]]; run again on that vector it erases 2 and leaves
    [bc = [3]].  Both runs end reading past the end of the vector.  On a
    node-based container with the same contents the first run leaves [3]
    and the second leaves it so. *)
Theorem probe_not_idempotent_on_vector (k : nat) :
  bc (final (IntersectionUpdateLargeAc (3 + k) [3] ([1; 2; 3] : Vec.t)))
  = [2; 3]
  /\ bc (final (IntersectionUpdateLargeAc (3 + k) [3]
                  (bc (final (IntersectionUpdateLargeAc (3 + k) [3]
                                ([1; 2; 3] : Vec.t))))))
     = [3]
  /\ NodeSeq.elements
       (bc (final (IntersectionUpdateLargeAc (3 + k) [3]
                     (NodeSeq.of_list [1; 2; 3]))))
     = [3]
  /\ NodeSeq.elements
       (bc (final (IntersectionUpdateLargeAc (3 + k) [3]
                     (bc (final (IntersectionUpdateLargeAc (3 + k) [3]
                                   (NodeSeq.of_list [1; 2; 3])))))))
     = [3].
Proof.
  assert (Hv1 : IntersectionUpdateLargeAc (3 + k) [3] ([1; 2; 3] : Vec.t)
                = Fault (State [3] [2; 3] 0 1 2%nat 3%nat [1; 3] : vec_state)).
  { unfold IntersectionUpdateLargeAc.
    erewrite while_fault_more by (vm_compute; reflexivity). reflexivity. }
  assert (Hv2 : @IntersectionUpdateLargeAc Vec.t Vec.iter Vec_Container
                  (3 + k) [3] [2; 3]
                = Fault (State [3] [3] 0 1 1%nat 2%nat [2] : vec_state)).
  { unfold IntersectionUpdateLargeAc.
    erewrite while_fault_more by (vm_compute; reflexivity). reflexivity. }
  assert (Hn1 : IntersectionUpdateLargeAc (3 + k) [3] (NodeSeq.of_list [1; 2; 3])
                = Done (State [3] [(2%nat, 3)] 0 1 NodeSeq.past_the_end
                              NodeSeq.past_the_end [1; 2; 3] : node_state)).
  { unfold IntersectionUpdateLargeAc.
    erewrite while_done_more by (vm_compute; reflexivity). reflexivity. }
  assert (Hn2 : @IntersectionUpdateLargeAc NodeSeq.t NodeSeq.iter
                  NodeSeq_Container (3 + k) [3] [(2%nat, 3)]
                = Done (State [3] [(2%nat, 3)] 0 1 NodeSeq.past_the_end
                              NodeSeq.past_the_end [3] : node_state)).
  { unfold IntersectionUpdateLargeAc.
    erewrite while_done_more by (vm_compute; reflexivity). reflexivity. }
  rewrite Hv1, Hn1. cbn [final bc]. rewrite Hv2, Hn2.
  repeat split.
Qed.

(** ** C10 *)




(** * Further properties of the code *)

(** ** The general merge variant without the ordering precondition *)

Lemma forallb_member_cons {A : Type} (g : A -> Z) x a2 (l : list A) :
  forallb (fun n => member a2 (g n)) l = true ->
  forallb (fun n => member (x :: a2) (g n)) l = true.
Proof.
  induction l as [|n l IH]; simpl; [reflexivity|].
  intros Hl. apply andb_prop in Hl. destruct Hl as [Hn Hl].
  rewrite Hn, orb_true_r. simpl. apply IH. exact Hl.
Qed.

Lemma forallb_map_snd {A : Type} (f : Z -> bool) (l : list (A * Z)) :
  forallb f (map snd l) = forallb (fun n => f (snd n)) l.
Proof.
  induction l as [|n l IH]; simpl; [reflexivity|]. rewrite IH. reflexivity.
Qed.

(** Whatever the order of [ac] and [bc], the loop returns, removes nodes
    only, and keeps a node only when its value was met in [ac]. *)
Lemma node_merge_safe : forall fuel a2 post a1 pre (st : node_state),
  ac st = a1 ++ a2 ->
  a st = length a1 ->
  a_end st = length (ac st) ->
  bc st = pre ++ post ->
  NodeSeq.wf (pre ++ post) ->
  b st = NodeSeq.begin_ post ->
  b_end st = NodeSeq.past_the_end ->
  (length a2 + length post <= fuel)%nat ->
  exists st' kept,
    and_then (while merge_cond merge_body fuel st) erase_rest = Done st'
    /\ bc st' = pre ++ kept
    /\ Subseq (map snd kept) (map snd post)
    /\ forallb (fun n => member a2 (snd n)) kept = true.
Proof.
  assert (Hexit : forall fuel a2 pre post (st : node_state),
             merge_cond st = false ->
             bc st = pre ++ post -> NodeSeq.wf (pre ++ post) ->
             b st = NodeSeq.begin_ post -> b_end st = NodeSeq.past_the_end ->
             exists st' kept,
               and_then (while merge_cond merge_body fuel st) erase_rest = Done st'
               /\ bc st' = pre ++ kept
               /\ Subseq (map snd kept) (map snd post)
               /\ forallb (fun n => member a2 (snd n)) kept = true).
  { intros fuel a2 pre post st Hc Hbc Hwf Hb Hbe.
    exists (set_bc st pre), []. rewrite (node_merge_exit _ pre post) by assumption.
    simpl. rewrite app_nil_r. repeat split. apply Subseq_nil_l. }
  induction fuel as [|fuel IH];
    intros a2 post a1 pre st Hac Ha Hae Hbc Hwf Hb Hbe Hfuel.
  - destruct a2; [|simpl in Hfuel; lia]. destruct post; [|simpl in Hfuel; lia].
    apply (Hexit _ _ pre []); auto.
    unfold merge_cond. rewrite Hb, Hbe. simpl. apply andb_false_r.
  - destruct a2 as [|x a2].
    { apply (Hexit _ _ pre post); auto.
      unfold merge_cond. rewrite Hae, Hac, Ha, app_nil_r, Nat.eqb_refl.
      reflexivity. }
    destruct post as [|n post].
    { apply (Hexit _ _ pre []); auto.
      unfold merge_cond. rewrite Hb, Hbe. simpl. apply andb_false_r. }
    pose proof (node_wf_fresh _ _ _ Hwf) as Hfresh.
    assert (Hcond : merge_cond st = true).
    { unfold merge_cond. rewrite Hae, Hac, Ha, Hb, Hbe, length_middle_neq.
      reflexivity. }
    assert (Hx : nth_error (ac st) (a st) = Some x)
      by (rewrite Hac, Ha; apply nth_error_middle).
    assert (Hy : deref (bc st) (b st) = Some (snd n))
      by (rewrite Hbc, Hb; simpl; apply node_deref_at; exact Hfresh).
    simpl in Hfuel.
    destruct (x <? snd n) eqn:Hlt; [|destruct (x >? snd n) eqn:Hgt].
    + erewrite while_step; [| exact Hcond |].
      2:{ unfold merge_body. rewrite Hx, Hy, Hlt. reflexivity. }
      destruct (IH a2 (n :: post) (a1 ++ [x]) pre (set_a st (S (a st))))
        as [st' [kept [Hrun [Hbc' [Hsub Hmem]]]]]; [vec_side .. |].
      exists st', kept. repeat split; auto.
      apply (forallb_member_cons snd). exact Hmem.
    + erewrite while_step; [| exact Hcond |].
      2:{ unfold merge_body. rewrite Hx, Hy, Hlt, Hgt.
          unfold erase_and_advance. rewrite Hbc, Hb. simpl.
          rewrite node_incr_at, node_erase_at by exact Hfresh. reflexivity. }
      destruct (IH (x :: a2) post a1 pre
                   (set_bc (set_b st (NodeSeq.begin_ post)) (pre ++ post)))
        as [st' [kept [Hrun [Hbc' [Hsub Hmem]]]]];
        [first [vec_side | eapply node_wf_remove; exact Hwf] .. |].
      exists st', kept. repeat split; auto.
      simpl. apply Subseq_skip. exact Hsub.
    + assert (x = snd n) as Heq.
      { apply Z.ltb_ge in Hlt. rewrite Z.gtb_ltb in Hgt.
        apply Z.ltb_ge in Hgt. lia. }
      erewrite while_step; [| exact Hcond |].
      2:{ unfold merge_body. rewrite Hx, Hy, Hlt, Hgt.
          unfold advance_b. rewrite Hbc, Hb. simpl.
          rewrite node_incr_at by exact Hfresh. reflexivity. }
      destruct (IH (x :: a2) post a1 (pre ++ [n])
                   (set_b st (NodeSeq.begin_ post)))
        as [st' [kept [Hrun [Hbc' [Hsub Hmem]]]]];
        [first [vec_side | rewrite <- app_assoc; exact Hwf] .. |].
      exists st', (n :: kept). repeat split; auto.
      * rewrite Hbc', <- app_assoc. reflexivity.
      * simpl. apply Subseq_take. exact Hsub.
      * cbn [forallb]. rewrite Hmem, andb_true_r.
        apply member_In. left. exact Heq.
Qed.

Lemma and_then_done {St : Type} (o : outcome St) (k : St -> option St) s' :
  and_then o k = Done s' -> exists s, o = Done s /\ k s = Some s'.
Proof.
  destruct o as [s|s|s]; simpl; try discriminate.
  destruct (k s) as [s1|] eqn:Hk; [|discriminate].
  intros Hd. injection Hd as <-. exists s. auto.
Qed.


Lemma ascending_cons x l :
  ascending l = true -> (forall y, In y l -> x <= y) -> ascending (x :: l) = true.
Proof.
  destruct l as [|y l]; [reflexivity|]. intros Hl Hle.
  change (ascending (x :: y :: l)) with ((x <=? y) && ascending (y :: l)).
  rewrite Hl, andb_true_r. apply Z.leb_le, Hle. left; reflexivity.
Qed.

Lemma ascending_Subseq r l :
  Subseq r l -> ascending l = true -> ascending r = true.
Proof.
  induction 1 as [|r l x Hs IH|r l x Hs IH]; intros Hasc.
  - reflexivity.
  - apply IH. eapply ascending_tail; exact Hasc.
  - apply ascending_cons.
    + apply IH. eapply ascending_tail; exact Hasc.
    + intros y Hy. apply (ascending_head_le _ _ Hasc).
      eapply Subseq_In; eassumption.
Qed.

(** ** The vector specialization only moves and removes elements *)

Lemma vec_assign_swap_head (t : Vec.t) j x y :
  nth_error t j = Some y -> Permutation (y :: Vec.assign t j x) (x :: t).
Proof.
  revert j; induction t as [|w t IH]; intros [|j] Hn; simpl in *;
    try discriminate.
  - injection Hn as ->. apply perm_swap.
  - specialize (IH j Hn).
    eapply perm_trans; [apply perm_swap|].
    eapply perm_trans; [apply perm_skip; exact IH|]. apply perm_swap.
Qed.

Lemma vec_iter_swap_perm (c c' : Vec.t) i j :
  Vec.iter_swap c i j = Some c' -> Permutation c' c.
Proof.
  unfold Vec.iter_swap.
  destruct (nth_error c i) as [x|] eqn:Hi; [|discriminate].
  destruct (nth_error c j) as [y|] eqn:Hj; [|discriminate].
  intros Hc. injection Hc as <-.
  revert i j Hi Hj; induction c as [|w c IH]; intros [|i] [|j] Hi Hj;
    simpl in *; try discriminate.
  - injection Hi as ->. injection Hj as ->. reflexivity.
  - injection Hi as ->. apply vec_assign_swap_head. exact Hj.
  - injection Hj as ->. apply vec_assign_swap_head. exact Hi.
  - apply perm_skip. apply IH; assumption.
Qed.

Lemma vector_body_perm (st st' : vstate) :
  vector_body st = Some st' -> Permutation (v_bc st') (v_bc st).
Proof.
  unfold vector_body.
  destruct (nth_error (v_ac st) (v_a st)); [|discriminate].
  destruct (Vec.deref (v_bc st) (v_b st)); [|discriminate].
  destruct (_ <? _); [intros Hs; injection Hs as <-; reflexivity|].
  destruct (_ >? _); [|intros Hs; injection Hs as <-; reflexivity].
  destruct (Vec.decr _); [|discriminate].
  destruct (Vec.iter_swap _ _ _) as [c'|] eqn:Hswap; [|discriminate].
  intros Hs; injection Hs as <-. simpl. eapply vec_iter_swap_perm; exact Hswap.
Qed.

Lemma vector_erase_rest_split (st st' : vstate) :
  vector_erase_rest st = Some st' ->
  v_bc st' = firstn (v_b st) (v_bc st).
Proof.
  unfold vector_erase_rest, Vec.erase_range, Vec.end_.
  destruct (_ && _); [|discriminate].
  intros Hs; injection Hs as <-. simpl.
  rewrite skipn_all, app_nil_r. reflexivity.
Qed.

(** ** The probe variant on node-based containers *)

(** X1.  On a node-based [bc] (set, multiset, list) in any order, the probe
    variant of [intersection_update2.cc] returns after one iteration per
    node: it has called [ac.find] once for every original occurrence, in
    order, and [bc] holds exactly the original nodes whose value is in
    [ac], in their original order. *)
Theorem probe_node_correct (fuel : nat) (ac0 bc0 : list Z)
    (Hfuel : (length bc0 <= fuel)%nat) :
  exists st',
    IntersectionUpdateLargeAc fuel ac0 (NodeSeq.of_list bc0) = Done st'
    /\ bc st' = filter (fun n => member ac0 (snd n)) (NodeSeq.of_list bc0)
    /\ NodeSeq.elements (bc st') = filter (member ac0) bc0
    /\ finds st' = bc0.
Proof.
  eexists. rewrite node_probe_correct;
    [|apply node_wf_of_list|rewrite node_length_of_list; exact Hfuel].
  split; [reflexivity|]. simpl. split; [reflexivity|].
  rewrite node_elements_of_list. split; [|reflexivity].
  unfold NodeSeq.elements. rewrite (map_snd_filter (member ac0)).
  fold (NodeSeq.elements (NodeSeq.of_list bc0)).
  rewrite node_elements_of_list. reflexivity.
Qed.

Lemma probe_node_correct_witness :
  exists st',
    IntersectionUpdateLargeAc 4 [5; 10] (NodeSeq.of_list [7; 5; 10; 5]) = Done st'
    /\ bc st' = filter (fun n => member [5; 10] (snd n))
                       (NodeSeq.of_list [7; 5; 10; 5])
    /\ NodeSeq.elements (bc st') = filter (member [5; 10]) [7; 5; 10; 5]
    /\ finds st' = [7; 5; 10; 5].
Proof.
  apply (probe_node_correct 4 [5; 10] [7; 5; 10; 5]). simpl. lia.
Defined.

Lemma set_probe_is_generic fuel ac0 (c : NodeSeq.t) :
  intersection_update.IntersectionUpdateLargeAc fuel ac0 c
  = intersection_update2.IntersectionUpdateLargeAc fuel ac0 c.
Proof. reflexivity. Qed.

(** X2.  The probe variant of [intersection_update.cc] returns after one
    iteration per element of the set [bc], and [bc] then holds exactly the
    original nodes whose value is in [ac]; it has called [ac.find] once
    for every element. *)
Theorem set_probe_correct (fuel : nat) (ac0 bc0 : list Z)
    (Hfuel : (length bc0 <= fuel)%nat) :
  exists st',
    intersection_update.IntersectionUpdateLargeAc fuel ac0 (NodeSeq.of_list bc0)
    = Done st'
    /\ bc st' = filter (fun n => member ac0 (snd n)) (NodeSeq.of_list bc0)
    /\ NodeSeq.elements (bc st') = filter (member ac0) bc0
    /\ finds st' = bc0
    /\ ac st' = ac0.
Proof.
  eexists. rewrite set_probe_is_generic, node_probe_correct;
    [|apply node_wf_of_list|rewrite node_length_of_list; exact Hfuel].
  split; [reflexivity|]. simpl. split; [reflexivity|].
  rewrite node_elements_of_list. split; [|split; reflexivity].
  unfold NodeSeq.elements. rewrite (map_snd_filter (member ac0)).
  fold (NodeSeq.elements (NodeSeq.of_list bc0)).
  rewrite node_elements_of_list. reflexivity.
Qed.

Lemma set_probe_correct_witness :
  exists st',
    intersection_update.IntersectionUpdateLargeAc 5 [2; 4; 6]
      (NodeSeq.of_list [1; 2; 3; 4; 5])
    = Done st'
    /\ bc st' = filter (fun n => member [2; 4; 6] (snd n))
                       (NodeSeq.of_list [1; 2; 3; 4; 5])
    /\ NodeSeq.elements (bc st') = filter (member [2; 4; 6]) [1; 2; 3; 4; 5]
    /\ finds st' = [1; 2; 3; 4; 5]
    /\ ac st' = [2; 4; 6].
Proof.
  apply (set_probe_correct 5 [2; 4; 6] [1; 2; 3; 4; 5]). simpl. lia.
Defined.

(** ** The two variants on node-based containers *)

(** X3.  On ascending inputs and a node-based [bc], the general merge
    variant and the probe variant of [intersection_update2.cc] both return
    and leave the same nodes in [bc]. *)
Theorem variants_agree_on_nodes (fuel : nat) (ac0 bc0 : list Z)
    (Hac : ascending ac0 = true)
    (Hbc : ascending bc0 = true)
    (Hfuel : (length ac0 + length bc0 <= fuel)%nat) :
  exists st_merge st_probe,
    IntersectionUpdate fuel ac0 (NodeSeq.of_list bc0) = Done st_merge
    /\ IntersectionUpdateLargeAc fuel ac0 (NodeSeq.of_list bc0) = Done st_probe
    /\ bc st_merge = bc st_probe.
Proof.
  destruct (node_variants_agree fuel ac0 (NodeSeq.of_list bc0))
    as [sm [sp [Hm [Hp [Heq _]]]]].
  - apply node_wf_of_list.
  - exact Hac.
  - rewrite node_elements_of_list. exact Hbc.
  - rewrite node_length_of_list. exact Hfuel.
  - exists sm, sp. auto.
Qed.

Lemma variants_agree_on_nodes_witness :
  exists st_merge st_probe,
    IntersectionUpdate 9 [1; 3; 3; 8] (NodeSeq.of_list [1; 1; 2; 3; 9])
    = Done st_merge
    /\ IntersectionUpdateLargeAc 9 [1; 3; 3; 8] (NodeSeq.of_list [1; 1; 2; 3; 9])
       = Done st_probe
    /\ bc st_merge = bc st_probe.
Proof.
  apply (variants_agree_on_nodes 9 [1; 3; 3; 8] [1; 1; 2; 3; 9]).
  - reflexivity.
  - reflexivity.
  - simpl. lia.
Defined.

(** ** Composing calls of the general merge variant *)




(** X5.  The general merge variant does not depend on its ordering
    precondition to be safe: on a node-based [bc] and an [ac] in any
    order it returns, what it leaves is the original [bc] with some
    occurrences left out, and every value left occurs in [ac]. *)
Theorem merge_general_safe_unsorted (fuel : nat) (ac0 bc0 : list Z)
    (Hfuel : (length ac0 + length bc0 <= fuel)%nat) :
  exists st',
    IntersectionUpdate fuel ac0 (NodeSeq.of_list bc0) = Done st'
    /\ Subseq (NodeSeq.elements (bc st')) bc0
    /\ forallb (member ac0) (NodeSeq.elements (bc st')) = true.
Proof.
  destruct (node_merge_safe fuel ac0 (NodeSeq.of_list bc0) [] []
                            (merge_init ac0 (NodeSeq.of_list bc0)))
    as [st' [kept [Hrun [Hbc [Hsub Hmem]]]]]; try reflexivity.
  - apply node_wf_of_list.
  - rewrite node_length_of_list. exact Hfuel.
  - exists st'. split; [exact Hrun|]. simpl in Hbc. rewrite Hbc.
    fold (NodeSeq.elements (NodeSeq.of_list bc0)) in Hsub.
    rewrite node_elements_of_list in Hsub. split; [exact Hsub|].
    unfold NodeSeq.elements. rewrite (forallb_map_snd (member ac0)). exact Hmem.
Qed.

Lemma merge_general_safe_unsorted_witness :
  exists st',
    IntersectionUpdate 7 [6; 2; 4] (NodeSeq.of_list [4; 1; 2; 6]) = Done st'
    /\ Subseq (NodeSeq.elements (bc st')) [4; 1; 2; 6]
    /\ forallb (member [6; 2; 4]) (NodeSeq.elements (bc st')) = true.
Proof.
  apply (merge_general_safe_unsorted 7 [6; 2; 4] [4; 1; 2; 6]). simpl. lia.
Defined.

(** ** The vector specialization on arbitrary inputs *)

(** X6.  The vector specialization of the merge variant never uses an
    invalid position: on every [ac] and every vector [bc], in any order, it
    returns within [|ac| + |bc|] iterations.  It only moves and removes
    elements: what it leaves, together with what it removed, is a
    rearrangement of the original [bc]; and what it leaves is [ac] with
    some occurrences left out. *)
Theorem vector_merge_sound (fuel : nat) (ac0 : list Z) (bc0 : Vec.t)
    (Hfuel : (length ac0 + length bc0 <= fuel)%nat) :
  exists st' removed,
    IntersectionUpdate_vector fuel ac0 bc0 = Done st'
    /\ Permutation (v_bc st' ++ removed) bc0
    /\ Subseq (v_bc st') ac0.
Proof.
  destruct (vector_merge_runs fuel ac0 bc0 Hfuel) as [st' [Hrun [_ [Hsub _]]]].
  unfold IntersectionUpdate_vector in Hrun.
  destruct (and_then_done _ _ _ Hrun) as [st1 [Hloop Hrest]].
  assert (Hperm : Permutation (v_bc st1) bc0).
  { change st1 with (final (Done st1)). rewrite <- Hloop.
    apply (while_invariant _ _ (fun st => Permutation (v_bc st) bc0));
      [|reflexivity].
    intros st st2 HP _ Hbody.
    eapply perm_trans; [eapply vector_body_perm; exact Hbody|exact HP]. }
  exists st', (skipn (v_b st1) (v_bc st1)).
  split; [unfold IntersectionUpdate_vector; exact Hrun|]. split; [|exact Hsub].
  rewrite (vector_erase_rest_split _ _ Hrest), firstn_skipn. exact Hperm.
Qed.

Lemma vector_merge_sound_witness :
  exists st' removed,
    IntersectionUpdate_vector 7 [2; 3; 9] [3; 1; 2; 3] = Done st'
    /\ Permutation (v_bc st' ++ removed) [3; 1; 2; 3]
    /\ Subseq (v_bc st') [2; 3; 9].
Proof.
  apply (vector_merge_sound 7 [2; 3; 9] [3; 1; 2; 3]). simpl. lia.
Defined.

(** X7.  When [ac] is ascending and the vector [bc] is [ac] with some
    occurrences left out (for two sets: [bc] is a subset of [ac]), the
    vector specialization returns without a swap and leaves [bc] as it
    is. *)
Theorem vector_merge_keeps_subsequence (fuel : nat) (ac0 : list Z) (bc0 : Vec.t)
    (Hac : ascending ac0 = true)
    (Hsub : Subseq bc0 ac0)
    (Hfuel : (length ac0 + length bc0 <= fuel)%nat) :
  exists st',
    IntersectionUpdate_vector fuel ac0 bc0 = Done st'
    /\ v_bc st' = bc0
    /\ v_b_high st' = length bc0.
Proof.
  unfold IntersectionUpdate_vector.
  destruct (vector_merge_fixed fuel ac0 bc0 Hac Hsub Hfuel)
    as [st' [Hrun [_ Hbc]]].
  exists st'. split; [exact Hrun|]. split; [exact Hbc|].
  unfold IntersectionUpdate_vector in Hrun.
  destruct (and_then_done _ _ _ Hrun) as [st1 [Hloop Hrest]].
  assert (Hst' : v_b_high st' = v_b_high st1).
  { unfold vector_erase_rest in Hrest.
    destruct (Vec.erase_range _ _ _); [|discriminate].
    injection Hrest as <-. reflexivity. }
  rewrite Hst'.
  assert (Hinv : length (v_bc st1) = length bc0
                 /\ (v_b st1 <= v_b_high st1 <= length (v_bc st1))%nat).
  { change st1 with (final (Done st1)). rewrite <- Hloop.
    apply (while_invariant _ _
             (fun st => length (v_bc st) = length bc0
                        /\ (v_b st <= v_b_high st <= length (v_bc st))%nat)).
    - intros st st2 [Hl Hb] Hc Hbody. unfold vector_cond in Hc.
      apply andb_prop in Hc. destruct Hc as [_ Hc].
      apply negb_true_iff, Nat.eqb_neq in Hc.
      unfold vector_body in Hbody.
      destruct (nth_error (v_ac st) (v_a st)); [|discriminate].
      destruct (Vec.deref (v_bc st) (v_b st)); [|discriminate].
      destruct (_ <? _); [injection Hbody as <-; simpl; split; [exact Hl|lia]|].
      destruct (_ >? _); [|injection Hbody as <-; simpl; split; [exact Hl|lia]].
      destruct (v_b_high st) as [|h] eqn:Hh; simpl in Hbody; [discriminate|].
      destruct (Vec.iter_swap _ _ _) as [c'|] eqn:Hswap; [|discriminate].
      injection Hbody as <-. simpl.
      rewrite (Permutation_length (vec_iter_swap_perm _ _ _ _ Hswap)).
      split; [exact Hl|lia].
    - simpl. unfold Vec.begin_, Vec.end_. split; [reflexivity|lia]. }
  destruct Hinv as [Hlen [Hb1 Hb2]].
  rewrite (vector_erase_rest_split _ _ Hrest) in Hbc.
  assert (length (firstn (v_b st1) (v_bc st1)) = length bc0) as Hfl
      by (rewrite Hbc; reflexivity).
  rewrite length_firstn in Hfl. lia.
Qed.

Lemma vector_merge_keeps_subsequence_witness :
  exists st',
    IntersectionUpdate_vector 6 [1; 2; 4; 6] [2; 4] = Done st'
    /\ v_bc st' = [2; 4]
    /\ v_b_high st' = length [2; 4].
Proof.
  apply (vector_merge_keeps_subsequence 6 [1; 2; 4; 6] [2; 4]).
  - reflexivity.
  - apply Subseq_skip, Subseq_take, Subseq_take, Subseq_skip, Subseq_nil.
  - simpl. lia.
Defined.

(** X8.  When [ac] is ascending, what the vector specialization leaves in
    [bc] is ascending, whatever the order of [bc] was and although the
    swaps reorder [bc] on the way. *)
Theorem vector_merge_result_ascending (fuel : nat) (ac0 : list Z) (bc0 : Vec.t)
    (Hac : ascending ac0 = true)
    (Hfuel : (length ac0 + length bc0 <= fuel)%nat) :
  exists st',
    IntersectionUpdate_vector fuel ac0 bc0 = Done st'
    /\ ascending (v_bc st') = true
    /\ (length (v_bc st') <= length bc0)%nat.
Proof.
  destruct (vector_merge_runs fuel ac0 bc0 Hfuel)
    as [st' [Hrun [_ [Hsub Hlen]]]].
  exists st'. split; [exact Hrun|]. split; [|exact Hlen].
  eapply ascending_Subseq; eassumption.
Qed.

Lemma vector_merge_result_ascending_witness :
  exists st',
    IntersectionUpdate_vector 7 [2; 3; 9] [3; 1; 2; 3] = Done st'
    /\ ascending (v_bc st') = true
    /\ (length (v_bc st') <= length [3; 1; 2; 3])%nat.
Proof.
  apply (vector_merge_result_ascending 7 [2; 3; 9] [3; 1; 2; 3]).
  - reflexivity.
  - simpl. lia.
Defined.

(** ** The probe variant on a vector without an erasure *)

(** X9.  On a vector every element of which is in [ac], the probe variant
    returns after one iteration per element without an erasure: [bc] is
    left as it is, the cursor has reached [b_end], and [ac.find] has been
    called once for every element, in order. *)
Theorem probe_vector_keeps_members (fuel : nat) (ac0 : list Z) (bc0 : Vec.t)
    (Hall : forallb (member ac0) bc0 = true)
    (Hfuel : (length bc0 <= fuel)%nat) :
  IntersectionUpdateLargeAc fuel ac0 bc0
  = Done (State ac0 bc0 0 (length ac0) (length bc0) (length bc0) bc0).
Proof.
  unfold IntersectionUpdateLargeAc.
  rewrite (vec_probe_keep bc0 []);
    [| reflexivity | reflexivity | reflexivity | reflexivity | | exact Hfuel].
  - reflexivity.
  - intros z Hz. rewrite forallb_forall in Hall. apply Hall. exact Hz.
Qed.

Lemma probe_vector_keeps_members_witness :
  IntersectionUpdateLargeAc 3 [1; 2; 5] ([1; 2] : Vec.t)
  = Done (State [1; 2; 5] [1; 2] 0 (length [1; 2; 5])
                (length [1; 2]) (length [1; 2]) [1; 2]).
Proof.
  apply (probe_vector_keeps_members 3 [1; 2; 5] [1; 2]).
  - reflexivity.
  - simpl. lia.
Defined.

(** ** Running an operation twice *)

(** X14.  On ascending inputs, running the same operation again on the
    [bc] it has reduced returns and leaves that [bc] as it is, for the
    general merge variant and the probe variant of
    [intersection_update2.cc] on a node-based container and for the
    vector specialization of the merge variant. *)
Theorem second_run_changes_nothing (fuel : nat) (ac0 bc0 : list Z)
    (Hac : ascending ac0 = true)
    (Hbc : ascending bc0 = true)
    (Hfuel : (length ac0 + length bc0 <= fuel)%nat) :
  (exists st1 st2 : node_state,
      IntersectionUpdate fuel ac0 (NodeSeq.of_list bc0) = Done st1
      /\ IntersectionUpdate fuel ac0 (bc st1) = Done st2
      /\ bc st2 = bc st1)
  /\ (exists st1 st2 : node_state,
        IntersectionUpdateLargeAc fuel ac0 (NodeSeq.of_list bc0) = Done st1
        /\ IntersectionUpdateLargeAc fuel ac0 (bc st1) = Done st2
        /\ bc st2 = bc st1)
  /\ (exists st1 st2 : vstate,
        IntersectionUpdate_vector fuel ac0 bc0 = Done st1
        /\ IntersectionUpdate_vector fuel ac0 (v_bc st1) = Done st2
        /\ v_bc st2 = v_bc st1).
Proof.
  split; [|split].
  - apply node_merge_idempotent.
    + apply node_wf_of_list.
    + exact Hac.
    + rewrite node_elements_of_list. exact Hbc.
    + rewrite node_length_of_list. exact Hfuel.
  - apply node_probe_idempotent.
    + apply node_wf_of_list.
    + rewrite node_length_of_list. lia.
  - apply vector_merge_idempotent; assumption.
Qed.

Lemma second_run_changes_nothing_witness :
  (exists st1 st2 : node_state,
      IntersectionUpdate 7 [2; 4; 6] (NodeSeq.of_list [2; 4; 5]) = Done st1
      /\ IntersectionUpdate 7 [2; 4; 6] (bc st1) = Done st2
      /\ bc st2 = bc st1)
  /\ (exists st1 st2 : node_state,
        IntersectionUpdateLargeAc 7 [2; 4; 6] (NodeSeq.of_list [2; 4; 5])
        = Done st1
        /\ IntersectionUpdateLargeAc 7 [2; 4; 6] (bc st1) = Done st2
        /\ bc st2 = bc st1)
  /\ (exists st1 st2 : vstate,
        IntersectionUpdate_vector 7 [2; 4; 6] [2; 4; 5] = Done st1
        /\ IntersectionUpdate_vector 7 [2; 4; 6] (v_bc st1) = Done st2
        /\ v_bc st2 = v_bc st1).
Proof.
  apply (second_run_changes_nothing 7 [2; 4; 6] [2; 4; 5]).
  - reflexivity.
  - reflexivity.
  - simpl. lia.
Defined.

(** ** Empty containers *)

(** X11.  With [bc] empty every entry point returns at once, for every
    [ac] and without a single iteration: no element of [ac] is read, no
    [ac.find] call is made and [bc] stays empty. *)
Theorem empty_bc_stays_empty (fuel : nat) (ac0 : list Z) :
  intersection_update2.IntersectionUpdateLargeAc fuel ac0 ([] : NodeSeq.t)
  = Done (intersection_update2.LargeAc_init ac0 [])
  /\ intersection_update2.IntersectionUpdateLargeAc fuel ac0 ([] : Vec.t)
     = Done (intersection_update2.LargeAc_init ac0 [])
  /\ intersection_update2.IntersectionUpdate fuel ac0 ([] : NodeSeq.t)
     = Done (intersection_update2.merge_init ac0 [])
  /\ IntersectionUpdate_vector fuel ac0 [] = Done (vector_init ac0 [])
  /\ intersection_update.IntersectionUpdateLargeAc fuel ac0 []
     = Done (intersection_update.LargeAc_init ac0 [])
  /\ intersection_update.IntersectionUpdate fuel ac0 []
     = Done (intersection_update.merge_init ac0 []).
Proof.
  assert (Hm : forall n : nat, negb (Nat.eqb 0 n) && false = false)
    by (intros n; apply andb_false_r).
  repeat split.
  - apply while_exit. reflexivity.
  - apply while_exit. reflexivity.
  - unfold intersection_update2.IntersectionUpdate.
    rewrite while_exit by (apply Hm). reflexivity.
  - unfold IntersectionUpdate_vector.
    rewrite while_exit by (apply Hm). reflexivity.
  - apply while_exit. reflexivity.
  - unfold intersection_update.IntersectionUpdate.
    rewrite while_exit by reflexivity. reflexivity.
Qed.

(** X12.  With [ac] empty the merge variant of [intersection_update2.cc]
    removes every element of [bc] without a single iteration, whatever
    [bc] holds and in whatever order: the general template on a
    node-based container and the vector specialization alike. *)
Theorem empty_ac_empties_bc (fuel : nat) (c : NodeSeq.t) (v : Vec.t) :
  intersection_update2.IntersectionUpdate fuel [] c
  = Done (set_bc (intersection_update2.merge_init [] c) [])
  /\ IntersectionUpdate_vector fuel [] v
     = Done (VState [] [] 0 0 0%nat (length v)).
Proof.
  split.
  - unfold intersection_update2.IntersectionUpdate.
    rewrite while_exit by reflexivity. simpl. unfold erase_rest. simpl.
    destruct c as [|n c]; simpl; [reflexivity|].
    rewrite node_points_to_self, node_drop_until_end. reflexivity.
  - unfold IntersectionUpdate_vector.
    rewrite (vec_merge_exit fuel [] v); reflexivity.
Qed.

(** ** The two programs *)

(** X13.  Both [main] functions run to their [return 0]: each of their
    calls, made on empty containers of the kinds the source declares,
    returns without an invalid iterator use and without an iteration. *)
Theorem mains_return_zero (fuel : nat) :
  intersection_update2.main fuel = Some 0
  /\ intersection_update.main fuel = Some 0.
Proof. destruct fuel; split; reflexivity. Qed.
